(** * A shallow embedding of the 2D geometry kernel of canvas-editor-starter-kit

    Source: [src/src/types.d.ts] (classes [Point], [Rectangle], [Circle],
    [Line], [Polygon]).

    Numbers.  A TypeScript [number] is modelled by a rational [Q] wherever the
    code only adds, subtracts, multiplies, divides and compares; the
    comparisons [<], [<=], [===] become [Qlt], [Qle] and [Qeq] (decided by the
    boolean functions [ltb], [leb], [eqb] below).  The code that calls
    [Math.sqrt], [Math.cos] or [Math.sin] ([Circle.fromThreePoints],
    [Polygon.regular], and the length, distance and rotation methods of
    [Point], [Line], [Circle] and [Polygon] that build on them) is modelled
    over the reals [R] in module [RealGeom].

    Objects.  Most of the kernel is read as pure functions over the field
    values of the objects.  Where object identity matters (the mutating
    [Point.divide], the constructors that do or do not copy their [Point]
    arguments, and the vertex-level mutators of [Polygon]) the objects live
    in an explicit heap of [Point] cells, see module [Heap]. *)

From Stdlib Require Import QArith Qabs Qminmax Qfield List Bool Psatz.
From Stdlib Require Import String ZArith Reals Sorted.
From stdpp Require Import base gmap list.
Import ListNotations.

Open Scope Q_scope.

(** ** Numbers *)

(** [a < b], [a <= b] and [a === b] on numbers. *)
Definition ltb (a b : Q) : bool := negb (Qle_bool b a).
Definition leb (a b : Q) : bool := Qle_bool a b.
Definition eqb (a b : Q) : bool := Qeq_bool a b.

(** The literal [1e-10] used as the default tolerance. *)
Definition eps : Q := 1 # 10000000000.

(** ** Point *)

(** [class Point { x: number; y: number }] as a value. *)
Record Point := mkPoint { x : Q; y : Q }.

(** Coordinate-wise [===] of two point values. *)
Definition Peq (p q : Point) : Prop := x p == x q /\ y p == y q.
Infix "==P" := Peq (at level 70, no associativity).

Definition Point_zero : Point := mkPoint 0 0.

(** [Point.add(p1, p2)] and [Point.subtract(p1, p2)] (static versions). *)
Definition Point_add (p1 p2 : Point) : Point := mkPoint (x p1 + x p2) (y p1 + y p2).
Definition Point_subtract (p1 p2 : Point) : Point :=
  mkPoint (x p1 - x p2) (y p1 - y p2).

(** [Point.lerp(p1, p2, t)]. *)
Definition Point_lerp (p1 p2 : Point) (t : Q) : Point :=
  mkPoint (x p1 + (x p2 - x p1) * t) (y p1 + (y p2 - y p1) * t).

(** ** Line *)

(** [class Line { start: Point; end: Point }]. *)
Record Line := mkLine { start : Point; end_ : Point }.

(** [line.pointAt(t)] = [Point.lerp(start, end, t)]. *)
Definition Line_pointAt (l : Line) (t : Q) : Point := Point_lerp (start l) (end_ l) t.

(** The [denominator] of [Line.intersects]: [-s2_x * s1_y + s1_x * s2_y]. *)
Definition Line_denominator (this line : Line) : Q :=
  let p0 := start this in let p1 := end_ this in
  let p2 := start line in let p3 := end_ line in
  let s1_x := x p1 - x p0 in let s1_y := y p1 - y p0 in
  let s2_x := x p3 - x p2 in let s2_y := y p3 - y p2 in
  - s2_x * s1_y + s1_x * s2_y.

(** [Line.prototype.intersects(line): Point | null]. *)
Definition Line_intersects (this line : Line) : option Point :=
  let p0 := start this in let p1 := end_ this in
  let p2 := start line in let p3 := end_ line in
  let s1_x := x p1 - x p0 in let s1_y := y p1 - y p0 in
  let s2_x := x p3 - x p2 in let s2_y := y p3 - y p2 in
  let denominator := - s2_x * s1_y + s1_x * s2_y in
  if ltb (Qabs denominator) eps then None
  else
    let s := (- s1_y * (x p0 - x p2) + s1_x * (y p0 - y p2)) / denominator in
    let t := (s2_x * (y p0 - y p2) - s2_y * (x p0 - x p2)) / denominator in
    if leb 0 s && leb s 1 && leb 0 t && leb t 1
    then Some (mkPoint (x p0 + t * s1_x) (y p0 + t * s1_y))
    else None.

(** A pair of segment parameters [(s, t)] solves the 2x2 linear system of two
    segments: the point at [t] on [this] is the point at [s] on [line]. *)
Definition solves (this line : Line) (s t : Q) : Prop :=
  Line_pointAt this t ==P Line_pointAt line s.

Definition in01 (r : Q) : Prop := 0 <= r /\ r <= 1.

(** ** Rectangle *)

Module Rect.

(** The coordinates of a [Point] argument. *)
Local Abbreviation px := x (only parsing).
Local Abbreviation py := y (only parsing).

(** [class Rectangle { x; y; width; height }]. *)
Record Rectangle := mkRectangle { x : Q; y : Q; width : Q; height : Q }.

(** The getters [right] and [bottom]. *)
Definition right (r : Rectangle) : Q := x r + width r.
Definition bottom (r : Rectangle) : Q := y r + height r.

(** [Rectangle.prototype.intersects(rect)]. *)
Definition intersects (this rect : Rectangle) : bool :=
  negb (ltb (right this) (x rect) || ltb (right rect) (x this)
        || ltb (bottom this) (y rect) || ltb (bottom rect) (y this)).

(** [Rectangle.prototype.intersection(rect): Rectangle | null]. *)
Definition intersection (this rect : Rectangle) : option Rectangle :=
  if negb (intersects this rect) then None
  else
    let x0 := Qmax (x this) (x rect) in
    let y0 := Qmax (y this) (y rect) in
    let right0 := Qmin (right this) (right rect) in
    let bottom0 := Qmin (bottom this) (bottom rect) in
    Some (mkRectangle x0 y0 (right0 - x0) (bottom0 - y0)).

(** A rectangle whose [width] and [height] are non-negative. *)
Definition normalized (r : Rectangle) : Prop := 0 <= width r /\ 0 <= height r.

(** Two closed intervals [[a, b]] and [[c, d]] share a point. *)
Definition overlap (a b c d : Q) : Prop := exists u, a <= u <= b /\ c <= u <= d.

(** A [Rectangle] holds numbers only, so its chainable mutators are read as
    the field values they leave in [this]. *)

(** [translate(dx, dy)]. *)
Definition translate (this : Rectangle) (dx dy : Q) : Rectangle :=
  mkRectangle (x this + dx) (y this + dy) (width this) (height this).

(** [expand(amount)]. *)
Definition expand (this : Rectangle) (amount : Q) : Rectangle :=
  mkRectangle (x this - amount) (y this - amount)
              (width this + amount * 2) (height this + amount * 2).

(** [normalize()]: first the [width] branch, then the [height] branch. *)
Definition normalize (this : Rectangle) : Rectangle :=
  let r1 := if ltb (width this) 0
            then mkRectangle (x this + width this) (y this) (- width this) (height this)
            else this in
  if ltb (height r1) 0
  then mkRectangle (x r1) (y r1 + height r1) (width r1) (- height r1)
  else r1.

(** The getters [centerX] and [centerY], and [center()]. *)
Definition centerX (r : Rectangle) : Q := x r + width r / 2.
Definition centerY (r : Rectangle) : Q := y r + height r / 2.
Definition center (r : Rectangle) : Point := mkPoint (centerX r) (centerY r).

(** [contains(arg)] with a [Point] argument. *)
Definition contains_point (this : Rectangle) (arg : Point) : bool :=
  leb (x this) (px arg) && leb (px arg) (right this) &&
  leb (y this) (py arg) && leb (py arg) (bottom this).

(** [contains(arg)] with a [Rectangle] argument. *)
Definition contains_rect (this arg : Rectangle) : bool :=
  leb (x this) (x arg) && leb (right arg) (right this) &&
  leb (y this) (y arg) && leb (bottom arg) (bottom this).

(** [Rectangle.fromPoints(p1, p2)]. *)
Definition fromPoints (p1 p2 : Point) : Rectangle :=
  let x0 := Qmin (px p1) (px p2) in
  let y0 := Qmin (py p1) (py p2) in
  let width0 := Qabs (px p2 - px p1) in
  let height0 := Qabs (py p2 - py p1) in
  mkRectangle x0 y0 width0 height0.

(** [Rectangle.fromCenter(center, width, height)]. *)
Definition fromCenter (center0 : Point) (width0 height0 : Q) : Rectangle :=
  mkRectangle (px center0 - width0 / 2) (py center0 - height0 / 2) width0 height0.

(** [Rectangle.union(rect1, rect2)] (static). *)
Definition union (rect1 rect2 : Rectangle) : Rectangle :=
  let x0 := Qmin (x rect1) (x rect2) in
  let y0 := Qmin (y rect1) (y rect2) in
  let right0 := Qmax (right rect1) (right rect2) in
  let bottom0 := Qmax (bottom rect1) (bottom rect2) in
  mkRectangle x0 y0 (right0 - x0) (bottom0 - y0).

(** Field-wise [===] of two rectangles. *)
Definition eqv (a b : Rectangle) : Prop :=
  x a == x b /\ y a == y b /\ width a == width b /\ height a == height b.

End Rect.

(** [line.boundingBox()]. *)
Definition Line_boundingBox (l : Line) : Rect.Rectangle :=
  let minX := Qmin (x (start l)) (x (end_ l)) in
  let minY := Qmin (y (start l)) (y (end_ l)) in
  let maxX := Qmax (x (start l)) (x (end_ l)) in
  let maxY := Qmax (y (start l)) (y (end_ l)) in
  Rect.mkRectangle minX minY (maxX - minX) (maxY - minY).

(** ** Vector *)

Module Vec.

(** [class Vector extends Point]: a [Vector] value is a [Point] value. *)

(** [Vector.dot(v1, v2)] and [Vector.cross(v1, v2)]. *)
Definition dot (v1 v2 : Point) : Q := x v1 * x v2 + y v1 * y v2.
Definition cross (v1 v2 : Point) : Q := x v1 * y v2 - y v1 * x v2.

(** [Point.multiply(point, scalar)] (static). *)
Definition Point_multiply (point : Point) (scalar : Q) : Point :=
  mkPoint (x point * scalar) (y point * scalar).

(** [Vector.project(vector, onto)] (static). *)
Definition project (vector onto : Point) : Point :=
  let dot0 := dot vector onto in
  let lengthSq := x onto * x onto + y onto * y onto in
  if eqb lengthSq 0 then mkPoint 0 0
  else
    let scalar := dot0 / lengthSq in
    let projectedPoint := Point_multiply onto scalar in
    mkPoint (x projectedPoint) (y projectedPoint).

(** [Vector.reflect(vector, normal)] (static). *)
Definition reflect (vector normal : Point) : Point :=
  let dot0 := dot vector normal in
  mkPoint (x vector - 2 * dot0 * x normal) (y vector - 2 * dot0 * y normal).

End Vec.

(** ** Objects in a heap *)

Module Heap.

(** References to [Point] objects. *)
Definition loc := nat.

(** The [Point] objects alive, and the next free reference. *)
Record heap := mkHeap { cells : gmap loc Point; next : loc }.

(** Every reference at or beyond [next] is unallocated. *)
Definition wf (h : heap) : Prop := forall l, (next h <= l)%nat -> cells h !! l = None.

(** Result of a call: a value, or a thrown [Error] with its message. *)
Inductive outcome (A : Type) := Ok (a : A) | Throw (msg : string).
Arguments Ok {A} a.
Arguments Throw {A} msg.

(** Calls that read and write the heap and may throw. *)
Definition M (A : Type) : Type := heap -> outcome A * heap.

Definition ret {A} (a : A) : M A := fun h => (Ok a, h).
Definition throw {A} (msg : string) : M A := fun h => (Throw msg, h).
Definition bind {A B} (c : M A) (k : A -> M B) : M B :=
  fun h => match c h with
           | (Ok a, h') => k a h'
           | (Throw e, h') => (Throw e, h')
           end.
Notation "a <- c ;; k" := (bind c (fun a => k))
  (at level 100, c at next level, right associativity).

(** Reading the fields of a [Point] object; a dangling reference would be a
    [TypeError] in JavaScript. *)
Definition readP (l : loc) : M Point :=
  fun h => match cells h !! l with
           | Some p => (Ok p, h)
           | None => (Throw "TypeError"%string, h)
           end.

(** Assigning both fields of a [Point] object. *)
Definition writeP (l : loc) (p : Point) : M unit :=
  fun h => (Ok tt, mkHeap (<[l := p]> (cells h)) (next h)).

(** [new Point(x, y)]. *)
Definition newPoint (p : Point) : M loc :=
  fun h => (Ok (next h), mkHeap (<[next h := p]> (cells h)) (S (next h))).

(** [point.clone()] = [new Point(this.x, this.y)]. *)
Definition Point_clone (this : loc) : M loc := p <- readP this ;; newPoint p.

(** [Point.prototype.divide(scalar)]: mutates and returns [this]. *)
Definition Point_divide (this : loc) (scalar : Q) : M loc :=
  if eqb scalar 0 then throw "Division by zero"%string
  else p <- readP this ;;
       _ <- writeP this (mkPoint (x p / scalar) (y p / scalar)) ;;
       ret this.

(** [Point.divide(point, scalar)] (static): a new [Point]. *)
Definition Point_divide_static (point : loc) (scalar : Q) : M loc :=
  if eqb scalar 0 then throw "Division by zero"%string
  else p <- readP point ;; newPoint (mkPoint (x p / scalar) (y p / scalar)).

(** [class Circle { center: Point; radius: number }] and its constructor
    [this.center = center; this.radius = radius]. *)
Record Circle := mkCircle { center : loc; radius : Q }.
Definition Circle_new (center0 : loc) (radius0 : Q) : Circle := mkCircle center0 radius0.

(** [class Line { start: Point; end: Point }] and its constructor
    [this.start = start; this.end = end]. *)
Record Line := mkLine { start : loc; end_ : loc }.
Definition Line_new (start0 end0 : loc) : Line := mkLine start0 end0.

(** [class Polygon { vertices: Point[] }]; the mutators below return the
    updated [Polygon] (the same object, its array updated in place). *)
Record Polygon := mkPolygon { vertices : list loc }.

(** [vertices.map((v) => v.clone())]. *)
Fixpoint clone_all (vs : list loc) : M (list loc) :=
  match vs with
  | [] => ret []
  | v :: vs' => c <- Point_clone v ;; cs <- clone_all vs' ;; ret (c :: cs)
  end.

(** [new Polygon(vertices)]. *)
Definition Polygon_new (vs : list loc) : M Polygon :=
  cs <- clone_all vs ;; ret (mkPolygon cs).

(** [addVertex(point)]: [this.vertices.push(point.clone())]. *)
Definition addVertex (this : Polygon) (point : loc) : M Polygon :=
  c <- Point_clone point ;; ret (mkPolygon (vertices this ++ [c])).

(** The start index of [Array.prototype.splice(index, ...)] on an array of
    length [len] (integer [index]): negative indices count from the end. *)
Definition splice_start (len : nat) (index : Z) : nat :=
  if (index <? 0)%Z then Z.to_nat (Z.max (Z.of_nat len + index) 0)
  else Nat.min (Z.to_nat index) len.

(** [insertVertex(index, point)]: [this.vertices.splice(index, 0, point.clone())]. *)
Definition insertVertex (this : Polygon) (index : Z) (point : loc) : M Polygon :=
  c <- Point_clone point ;;
  let k := splice_start (length (vertices this)) index in
  ret (mkPolygon (firstn k (vertices this) ++ c :: skipn k (vertices this))).

(** [removeVertex(index)]: [splice(index, 1)] when [0 <= index < length]. *)
Definition removeVertex (this : Polygon) (index : Z) : Polygon :=
  if ((0 <=? index) && (index <? Z.of_nat (length (vertices this))))%Z
  then mkPolygon (firstn (Z.to_nat index) (vertices this)
                  ++ skipn (S (Z.to_nat index)) (vertices this))
  else this.

(** [getVertex(index)]: [null] out of bounds, else a clone of the vertex. *)
Definition getVertex (this : Polygon) (index : Z) : M (option loc) :=
  if ((index <? 0) || (Z.of_nat (length (vertices this)) <=? index))%Z then ret None
  else match vertices this !! Z.to_nat index with
       | Some v => c <- Point_clone v ;; ret (Some c)
       | None => throw "TypeError"%string
       end.

(** [setVertex(index, point)]: [this.vertices[index] = point.clone()] when
    [0 <= index < length]. *)
Definition setVertex (this : Polygon) (index : Z) (point : loc) : M Polygon :=
  if ((0 <=? index) && (index <? Z.of_nat (length (vertices this))))%Z
  then c <- Point_clone point ;; ret (mkPolygon (<[Z.to_nat index := c]> (vertices this)))
  else ret this.

(** [point.add(p)], [point.subtract(p)] and [point.multiply(scalar)]:
    mutate and return [this]. *)
Definition Point_add (this point : loc) : M loc :=
  p <- readP this ;; q <- readP point ;;
  _ <- writeP this (mkPoint (x p + x q) (y p + y q)) ;; ret this.
Definition Point_subtract (this point : loc) : M loc :=
  p <- readP this ;; q <- readP point ;;
  _ <- writeP this (mkPoint (x p - x q) (y p - y q)) ;; ret this.
Definition Point_multiply (this : loc) (scalar : Q) : M loc :=
  p <- readP this ;; _ <- writeP this (mkPoint (x p * scalar) (y p * scalar)) ;; ret this.

(** [line.scale(factor, origin)]: for each endpoint,
    [p.subtract(origin).multiply(factor).add(origin)]. *)
Definition Line_scale (this : Line) (factor : Q) (origin : loc) : M Line :=
  a <- Point_subtract (start this) origin ;; b <- Point_multiply a factor ;;
  _ <- Point_add b origin ;;
  c <- Point_subtract (end_ this) origin ;; d <- Point_multiply c factor ;;
  _ <- Point_add d origin ;;
  ret this.

(** The heap after [writeP l p]. *)
Definition upd (h : heap) (l : loc) (p : Point) : heap := mkHeap (<[l := p]> (cells h)) (next h).

(** A heap holding the endpoints (1, 2) and (3, 4) of a line at references 0
    and 1, and the point (5, 6) at reference 2. *)
Definition heap_line : heap :=
  mkHeap (<[0%nat := mkPoint 1 2]> (<[1%nat := mkPoint 3 4]> (<[2%nat := mkPoint 5 6]> ∅))) 3%nat.

(** A heap holding the single [Point] (4, 6) at reference 0. *)
Definition heap_one : heap := mkHeap (<[0%nat := mkPoint 4 6]> ∅) 1%nat.

(** The [Point] object [l] exists. *)
Definition valid (h : heap) (l : loc) : Prop := is_Some (cells h !! l).

(** The objects [cs], created after [h], share nothing with the objects of
    [h]: writing to an older object leaves them unchanged and writing to one
    of them leaves the older objects unchanged. *)
Definition detached (h h' : heap) (cs : list loc) : Prop :=
  (forall l0 p', (l0 < next h)%nat -> forall c, In c cs ->
     cells (snd (writeP l0 p' h')) !! c = cells h' !! c) /\
  (forall c p', In c cs -> forall l0, (l0 < next h)%nat ->
     cells (snd (writeP c p' h')) !! l0 = cells h' !! l0).

End Heap.

(** ** Polygon (vertex values) *)

Module Poly.

(** The methods below read [this.vertices], modelled by the list of the
    vertex values. *)

(** [point.equals(other, tolerance)]. *)
Definition Point_equals (p q : Point) (tolerance : Q) : bool :=
  ltb (Qabs (x p - x q)) tolerance && ltb (Qabs (y p - y q)) tolerance.

(** [this.vertices[i]] for an index in range. *)
Definition vtx (vs : list Point) (i : nat) : Point := nth i vs Point_zero.

(** [isClosed()]. *)
Definition isClosed (vs : list Point) : bool :=
  (2 <? length vs)%nat && Point_equals (vtx vs 0) (vtx vs (length vs - 1)) eps.

(** The pairs [(vertices[i], vertices[(i + 1) % n])] for [i = 0 .. n-1]. *)
Definition rotl (vs : list Point) : list Point :=
  match vs with [] => [] | v :: r => r ++ [v] end.
Definition cycle_pairs (vs : list Point) : list (Point * Point) := combine vs (rotl vs).

(** [centroid()]. *)
Definition centroid (vs : list Point) : Point :=
  let n := inject_Z (Z.of_nat (length vs)) in
  if (length vs =? 0)%nat then Point_zero
  else if (length vs <? 3)%nat then
    let sumX := fold_left (fun acc v => acc + x v) vs 0 in
    let sumY := fold_left (fun acc v => acc + y v) vs 0 in
    mkPoint (sumX / n) (sumY / n)
  else
    let '(cx, cy, signedArea) :=
      fold_left (fun '(cx, cy, sa) '(p1, p2) =>
                   let crossProductTerm := x p1 * y p2 - x p2 * y p1 in
                   (cx + (x p1 + x p2) * crossProductTerm,
                    cy + (y p1 + y p2) * crossProductTerm,
                    sa + crossProductTerm))
                (cycle_pairs vs) (0, 0, 0) in
    if ltb (Qabs signedArea) eps then
      (* [Point.divide(sum, n)] with [n >= 3], which does not throw *)
      let sum := fold_left (fun acc v => Point_add acc v) vs Point_zero in
      mkPoint (x sum / n) (y sum / n)
    else
      let signedArea := signedArea / 2 in
      mkPoint (cx / (6 * signedArea)) (cy / (6 * signedArea)).

(** [contains(point)]: the even-odd ray casting loop
    [for (i = 0, j = n - 1; i < n; j = i++)]. *)
Fixpoint contains_loop (point vj : Point) (vs : list Point) (inside : bool) : bool :=
  match vs with
  | [] => inside
  | vi :: rest =>
      let intersect :=
        xorb (ltb (y point) (y vi)) (ltb (y point) (y vj))
        && ltb (x point) ((x vj - x vi) * (y point - y vi) / (y vj - y vi) + x vi) in
      contains_loop point vi rest (if intersect then negb inside else inside)
  end.

Definition contains (vs : list Point) (point : Point) : bool :=
  if (length vs <? 3)%nat then false
  else contains_loop point (vtx vs (length vs - 1)) vs false.

(** [getEdges()]. *)
Definition getEdges (vs : list Point) : list Line :=
  let n := length vs in
  if (n <? 2)%nat then []
  else
    let limit := if isClosed vs && (1 <? n)%nat then (n - 1)%nat else n in
    map (fun i => mkLine (vtx vs i) (vtx vs ((i + 1) mod n))) (seq 0 limit).

(** [intersects(polygon)]. *)
Definition intersects (this polygon : list Point) : bool :=
  if ((length this =? 0) || (length polygon =? 0))%nat then false
  else
    let edges1 := getEdges this in
    let edges2 := getEdges polygon in
    if existsb (fun edge1 => existsb (fun edge2 =>
          match Line_intersects edge1 edge2 with Some _ => true | None => false end)
          edges2) edges1
    then true
    else if (0 <? length this)%nat && contains polygon (vtx this 0) then true
    else if (0 <? length polygon)%nat && contains this (vtx polygon 0) then true
    else false.

(** The shoelace signed sum, the weighted sums and the arithmetic mean, as
    the spec words them (sums over the edges [(v_i, v_(i+1))] of the cycle). *)
Definition shoelace (vs : list Point) : Q :=
  fold_right (fun '(p, q) acc => (x p * y q - x q * y p) + acc) 0 (cycle_pairs vs).
Definition wsum_x (vs : list Point) : Q :=
  fold_right (fun '(p, q) acc => (x p + x q) * (x p * y q - x q * y p) + acc) 0
             (cycle_pairs vs).
Definition wsum_y (vs : list Point) : Q :=
  fold_right (fun '(p, q) acc => (y p + y q) * (x p * y q - x q * y p) + acc) 0
             (cycle_pairs vs).
Definition mean (vs : list Point) : option Point :=
  match vs with
  | [] => None
  | _ => let n := inject_Z (Z.of_nat (length vs)) in
         Some (mkPoint (fold_right (fun v acc => x v + acc) 0 vs / n)
                       (fold_right (fun v acc => y v + acc) 0 vs / n))
  end.

(** [close()]: pushes a copy of the first vertex when there are more than
    two vertices and the polygon is not closed. *)
Definition close (vs : list Point) : list Point :=
  if (2 <? length vs)%nat && negb (isClosed vs) then vs ++ [vtx vs 0] else vs.

(** [isConvex()]: the [for] loop over [i = 0 .. pointsToTest - 1] with the
    variable [sign] (0, 1 or -1) and its early [return false]. *)
Fixpoint isConvex_loop (vs : list Point) (n : nat) (idx : list nat) (sign : Z) : bool :=
  match idx with
  | [] => true
  | i :: rest =>
      let p1 := vtx vs i in
      let p2 := vtx vs ((i + 1) mod n) in
      let p3 := vtx vs ((i + 2) mod n) in
      let crossProductZ := (x p2 - x p1) * (y p3 - y p2) - (y p2 - y p1) * (x p3 - x p2) in
      if ltb eps (Qabs crossProductZ) then
        let currentSign := if ltb 0 crossProductZ then 1%Z else (-1)%Z in
        if (sign =? 0)%Z then isConvex_loop vs n rest currentSign
        else if negb (sign =? currentSign)%Z then false
        else isConvex_loop vs n rest sign
      else isConvex_loop vs n rest sign
  end.

Definition isConvex (vs : list Point) : bool :=
  if (length vs <? 3)%nat then false
  else
    let n := length vs in
    let pointsToTest := if isClosed vs then (n - 1)%nat else n in
    isConvex_loop vs n (seq 0 pointsToTest) 0%Z.

(** [boundingBox()]: [new Rectangle()] for no vertices, otherwise the loop
    from [i = 1] updating [minX], [maxX], [minY] and [maxY]. *)
Definition boundingBox (vs : list Point) : Rect.Rectangle :=
  match vs with
  | [] => Rect.mkRectangle 0 0 0 0
  | v0 :: rest =>
      let '(minX, maxX, minY, maxY) :=
        fold_left (fun '(minX, maxX, minY, maxY) v =>
                     (Qmin minX (x v), Qmax maxX (x v), Qmin minY (y v), Qmax maxY (y v)))
                  rest (x v0, x v0, y v0, y v0) in
      Rect.mkRectangle minX minY (maxX - minX) (maxY - minY)
  end.

(** [Polygon.rectangle(x, y, width, height)]: four vertices, then [close()]. *)
Definition rectangle (x0 y0 width height : Q) : list Point :=
  close [mkPoint x0 y0; mkPoint (x0 + width) y0;
         mkPoint (x0 + width) (y0 + height); mkPoint x0 (y0 + height)].

(** [Polygon.fromRectangle(rect)]. *)
Definition fromRectangle (rect : Rect.Rectangle) : list Point :=
  rectangle (Rect.x rect) (Rect.y rect) (Rect.width rect) (Rect.height rect).

(** The unit square, used as an example polygon below. *)
Definition unit_square : list Point :=
  [mkPoint 0 0; mkPoint 1 0; mkPoint 1 1; mkPoint 0 1].

End Poly.

Module Hull.
Import Poly.

(** [Polygon.convexHull(points)].  The comparator of the sort. *)
Definition compare (a b : Point) : Q :=
  if eqb (x a) (x b) then y a - y b else x a - x b.

(** [Array.prototype.sort] is stable: an insertion sort that puts each point
    after the points it does not compare below. *)
Fixpoint insertSorted (p : Point) (l : list Point) : list Point :=
  match l with
  | [] => [p]
  | e :: r => if ltb (compare p e) 0 then p :: e :: r else e :: insertSorted p r
  end.

Definition sortPoints (points : list Point) : list Point :=
  fold_left (fun acc p => insertSorted p acc) points [].

(** The helper [crossProduct(o, a, b)]. *)
Definition crossProduct (o a b : Point) : Q :=
  (x a - x o) * (y b - y o) - (y a - y o) * (x b - x o).

(** The arrays [lowerHull] and [upperHull] are kept as stacks, top first: the
    array is [rev st], [hull[hull.length - 1]] is the head and
    [hull[hull.length - 2]] the second element.  The [while] loop: *)
Fixpoint popWhile (st : list Point) (p : Point) : list Point :=
  match st with
  | a :: ((b :: _) as r) => if leb (crossProduct b a p) 0 then popWhile r p else st
  | _ => st
  end.

(** One iteration of either [for] loop: pop, then [hull.push(p)]. *)
Definition pushPoint (st : list Point) (p : Point) : list Point := p :: popWhile st p.

Definition convexHull (points : list Point) : list Point :=
  if (length points <? 3)%nat then points
  else
    let sortedPoints := sortPoints points in
    let lowerHull := fold_left pushPoint sortedPoints [] in
    let upperHull := fold_left pushPoint (rev sortedPoints) [] in
    (* [lowerHull.pop(); upperHull.pop(); lowerHull.concat(upperHull)] *)
    rev (tl lowerHull) ++ rev (tl upperHull).

(** The lexicographic order of the sort, the edges [(hull[i], hull[i+1])] of a
    stack and of a vertex list, and the point reflection [(x, y) -> (-x, -y)]. *)
Definition lexle (a b : Point) : Prop := x a < x b \/ (x a == x b /\ y a <= y b).

Fixpoint st_edges (st : list Point) : list (Point * Point) :=
  match st with
  | a :: ((b :: _) as r) => (b, a) :: st_edges r
  | _ => []
  end.

Fixpoint path_pairs (vs : list Point) : list (Point * Point) :=
  match vs with
  | a :: ((b :: _) as r) => (a, b) :: path_pairs r
  | _ => []
  end.

Definition neg (p : Point) : Point := mkPoint (- x p) (- y p).

(** The invariant of either loop, for the points [Pin] scanned so far: the
    stack is not empty, its bottom is [bot], it holds scanned points only,
    [bot] and the top are the least and the greatest scanned points, its edges
    go up in the order and every scanned point lies weakly left of each. *)
Definition hull_inv (bot : Point) (st : list Point) (Pin : Point -> Prop) : Prop :=
  st <> [] /\ List.last st bot = bot /\
  (forall c, In c st -> Pin c) /\
  (forall q, Pin q -> lexle bot q /\ lexle q (hd bot st)) /\
  (forall b a, In (b, a) (st_edges st) ->
               lexle b a /\ forall q, Pin q -> 0 <= crossProduct b a q).

End Hull.

Module RealGeom.

(** The parts of the kernel that call [Math.sqrt], [Math.cos] and [Math.sin],
    over the reals: [Point] here has real coordinates. *)

Local Open Scope R_scope.

(** [a < b] on numbers. *)
Definition ltb (a b : R) : bool := if Rlt_dec a b then true else false.

(** [1e-10]. *)
Definition eps : R := / 10000000000.

(** [class Point] with real coordinates. *)
Record Point := mkPoint { x : R; y : R }.

(** [Point.distance(p1, p2)], which [p1.distanceTo(p2)] calls. *)
Definition distance (p1 p2 : Point) : R :=
  let dx := x p2 - x p1 in
  let dy := y p2 - y p1 in
  sqrt (dx * dx + dy * dy).

Definition distanceTo (this point : Point) : R := distance this point.

(** [class Circle] as a value. *)
Record Circle := mkCircle { center : Point; radius : R }.

(** [Circle.fromThreePoints(p1, p2, p3)]; [null] is [None]. *)
Definition fromThreePoints (p1 p2 p3 : Point) : option Circle :=
  let D := 2 * (x p1 * (y p2 - y p3) + x p2 * (y p3 - y p1) + x p3 * (y p1 - y p2)) in
  if ltb (Rabs D) eps then None
  else
    let p1Sq := x p1 * x p1 + y p1 * y p1 in
    let p2Sq := x p2 * x p2 + y p2 * y p2 in
    let p3Sq := x p3 * x p3 + y p3 * y p3 in
    let centerX := (p1Sq * (y p2 - y p3) + p2Sq * (y p3 - y p1) + p3Sq * (y p1 - y p2)) / D in
    let centerY := (p1Sq * (x p3 - x p2) + p2Sq * (x p1 - x p3) + p3Sq * (x p2 - x p1)) / D in
    let center := mkPoint centerX centerY in
    let radius := distanceTo center p1 in
    Some (mkCircle center radius).

(** [point.equals(other, tolerance)]. *)
Definition Point_equals (p q : Point) (tolerance : R) : bool :=
  ltb (Rabs (x p - x q)) tolerance && ltb (Rabs (y p - y q)) tolerance.

Definition Point_zero : Point := mkPoint 0 0.

(** [this.vertices[i]] for an index in range. *)
Definition vtx (vs : list Point) (i : nat) : Point := nth i vs Point_zero.

(** [isClosed()]. *)
Definition isClosed (vs : list Point) : bool :=
  (2 <? length vs)%nat && Point_equals (vtx vs 0) (vtx vs (length vs - 1)) eps.

(** [close()]: pushes a copy of the first vertex unless already closed. *)
Definition close (vs : list Point) : list Point :=
  if (2 <? length vs)%nat && negb (isClosed vs) then vs ++ [vtx vs 0] else vs.

(** The pairs [(vertices[i], vertices[(i + 1) % n])] for [i = 0 .. n-1]. *)
Definition rotl (vs : list Point) : list Point :=
  match vs with [] => [] | v :: r => r ++ [v] end.
Definition cycle_pairs (vs : list Point) : list (Point * Point) := combine vs (rotl vs).

(** [area()]: [area += vi.x * vj.y; area -= vj.x * vi.y] over the cycle. *)
Definition area (vs : list Point) : R :=
  if (length vs <? 3)%nat then 0
  else Rabs (fold_left (fun acc '(vi, vj) => acc + x vi * y vj - x vj * y vi)
                       (cycle_pairs vs) 0) / 2.

(** [Polygon.regular(center, radius, sides)] for an integer number of sides;
    the error thrown for [sides < 3] is [None].  The constructor's copies are
    values here, and [close()] is applied to the new vertex list. *)
Definition regular (center : Point) (radius : R) (sides : nat) : option (list Point) :=
  if (sides <? 3)%nat then None
  else
    let angleStep := 2 * PI / INR sides in
    let vertices := map (fun i =>
                      let angle := INR i * angleStep in
                      mkPoint (x center + radius * cos angle)
                              (y center + radius * sin angle)) (seq 0 sides) in
    Some (close vertices).

(** The shoelace signed sum over the vertex cycle, as the spec words it. *)
Definition shoelace (vs : list Point) : R :=
  fold_right (fun '(p, q) acc => (x p * y q - x q * y p) + acc) 0 (cycle_pairs vs).

(** The open-path shoelace sum [sum (v_i.x * v_(i+1).y - v_(i+1).x * v_i.y)]
    over the consecutive vertices of a list, without wrapping around. *)
Fixpoint path_sum (vs : list Point) : R :=
  match vs with
  | a :: ((b :: _) as r) => (x a * y b - x b * y a) + path_sum r
  | _ => 0
  end.

(** [a <= b] and [a === b] on numbers. *)
Definition leb (a b : R) : bool := if Rle_dec a b then true else false.
Definition eqb (a b : R) : bool := if Req_EM_T a b then true else false.

(** [Point.add(p1, p2)], [Point.subtract(p1, p2)], [Point.multiply(point, scalar)],
    [Point.midpoint(p1, p2)] and [Point.lerp(p1, p2, t)]; the instance methods
    [add], [subtract] and [multiply] compute the same values in place. *)
Definition Point_add (p1 p2 : Point) : Point := mkPoint (x p1 + x p2) (y p1 + y p2).
Definition Point_subtract (p1 p2 : Point) : Point := mkPoint (x p1 - x p2) (y p1 - y p2).
Definition Point_multiply (point : Point) (scalar : R) : Point :=
  mkPoint (x point * scalar) (y point * scalar).
Definition midpoint (p1 p2 : Point) : Point := mkPoint ((x p1 + x p2) / 2) ((y p1 + y p2) / 2).
Definition lerp (p1 p2 : Point) (t : R) : Point :=
  mkPoint (x p1 + (x p2 - x p1) * t) (y p1 + (y p2 - y p1) * t).

(** [point.length()]. *)
Definition Point_length (p : Point) : R := sqrt (x p * x p + y p * y p).

(** [point.divide(scalar)] on the point's value; the error thrown for
    [scalar === 0] is [None]. *)
Definition Point_divide (p : Point) (scalar : R) : option Point :=
  if eqb scalar 0 then None else Some (mkPoint (x p / scalar) (y p / scalar)).

(** [point.normalize()] on the point's value. *)
Definition Point_normalize (p : Point) : option Point :=
  let length := Point_length p in
  if eqb length 0 then Some p else Point_divide p length.

(** [point.rotate(angle)] and [Point.rotate(point, angle)]. *)
Definition Point_rotate (p : Point) (angle : R) : Point :=
  let cos0 := cos angle in
  let sin0 := sin angle in
  mkPoint (x p * cos0 - y p * sin0) (x p * sin0 + y p * cos0).

(** [class Line] as a value. *)
Record Line := mkLine { start : Point; end_ : Point }.

(** [line.length()]. *)
Definition Line_length (l : Line) : R := distanceTo (start l) (end_ l).

(** [line.pointAt(t)]. *)
Definition Line_pointAt (l : Line) (t : R) : Point := lerp (start l) (end_ l) t.

(** [line.distanceToPoint(point)]. *)
Definition Line_distanceToPoint (this : Line) (point : Point) : R :=
  let l2 := distanceTo (start this) (end_ this) ^ 2 in
  if eqb l2 0 then distanceTo point (start this)
  else
    let t := ((x point - x (start this)) * (x (end_ this) - x (start this)) +
              (y point - y (start this)) * (y (end_ this) - y (start this))) / l2 in
    let tClamped := Rmax 0 (Rmin 1 t) in
    let projection := Line_pointAt this tClamped in
    distanceTo point projection.

(** [line.containsPoint(point, tolerance)]. *)
Definition Line_containsPoint (this : Line) (point : Point) (tolerance : R) : bool :=
  leb (Line_distanceToPoint this point) tolerance.

(** [Line.fromPointAndDirection(point, direction, length)]: [direction.clone()]
    is normalized, so the error [normalize] could throw is propagated as [None]. *)
Definition fromPointAndDirection (point direction : Point) (length : R) : option Line :=
  match Point_normalize direction with
  | None => None
  | Some n => let end0 := Point_add point (Point_multiply n length) in
              Some (mkLine point end0)
  end.

Local Abbreviation px := x (only parsing).
Local Abbreviation py := y (only parsing).

(** [class Rectangle] with real fields, for [Circle]'s methods. *)
Module RectR.
Record Rectangle := mkRectangle { x : R; y : R; width : R; height : R }.
Definition right (r : Rectangle) : R := x r + width r.
Definition bottom (r : Rectangle) : R := y r + height r.
(** [rect.contains(point)]. *)
Definition contains_point (this : Rectangle) (arg : Point) : bool :=
  leb (x this) (px arg) && leb (px arg) (right this) &&
  leb (y this) (py arg) && leb (py arg) (bottom this).
End RectR.

(** [circle.contains(point)]. *)
Definition Circle_contains (this : Circle) (point : Point) : bool :=
  leb (distanceTo (center this) point) (radius this).

(** [circle.intersects(arg)] for a [Circle] argument. *)
Definition Circle_intersects_circle (this arg : Circle) : bool :=
  let distance0 := distanceTo (center this) (center arg) in
  leb distance0 (radius this + radius arg).

(** [circle.intersects(arg)] for a [Rectangle] argument. *)
Definition Circle_intersects_rect (this : Circle) (arg : RectR.Rectangle) : bool :=
  let closestX := Rmax (RectR.x arg) (Rmin (x (center this)) (RectR.right arg)) in
  let closestY := Rmax (RectR.y arg) (Rmin (y (center this)) (RectR.bottom arg)) in
  let distanceToClosestPoint := distanceTo (center this) (mkPoint closestX closestY) in
  leb distanceToClosestPoint (radius this).

(** [circle.boundingBox()]. *)
Definition Circle_boundingBox (this : Circle) : RectR.Rectangle :=
  RectR.mkRectangle (x (center this) - radius this) (y (center this) - radius this)
                    (radius this * 2) (radius this * 2).

(** [circle.pointAt(angle)]. *)
Definition Circle_pointAt (this : Circle) (angle : R) : Point :=
  mkPoint (x (center this) + cos angle * radius this)
          (y (center this) + sin angle * radius this).

(** [Circle.fromDiameter(p1, p2)]. *)
Definition fromDiameter (p1 p2 : Point) : Circle :=
  let center0 := midpoint p1 p2 in
  let radius0 := distance p1 p2 / 2 in
  mkCircle center0 radius0.

(** [polygon.translate(dx, dy)]: each vertex gets [vertex.add(new Point(dx, dy))]. *)
Definition translate (vs : list Point) (dx dy : R) : list Point :=
  map (fun vertex => Point_add vertex (mkPoint dx dy)) vs.

(** [polygon.scale(factor, origin)] and [polygon.rotate(angle, origin)] for an
    [origin] given by the caller that is not one of the vertex objects: each
    vertex gets [vertex.subtract(origin).multiply(factor).add(origin)], resp.
    [vertex.subtract(origin).rotate(angle).add(origin)]. *)
Definition scale (vs : list Point) (factor : R) (origin : Point) : list Point :=
  map (fun vertex => Point_add (Point_multiply (Point_subtract vertex origin) factor) origin) vs.
Definition rotate (vs : list Point) (angle : R) (origin : Point) : list Point :=
  map (fun vertex => Point_add (Point_rotate (Point_subtract vertex origin) angle) origin) vs.

(** The loop of [simplify()] over [i = 1 .. effectiveVertices.length - 2]. *)
Definition simplify_loop (effectiveVertices : list Point) (tolerance : R)
    (simplified : list Point) : list Point :=
  fold_left (fun simplified i =>
               let prev := vtx simplified (length simplified - 1) in
               let curr := vtx effectiveVertices i in
               let next := vtx effectiveVertices (i + 1) in
               let line := mkLine prev next in
               let distance0 := Line_distanceToPoint line curr in
               if ltb tolerance distance0 then simplified ++ [curr] else simplified)
            (seq 1 (length effectiveVertices - 2)) simplified.

(** [polygon.simplify(tolerance)]; [slice(0, -1)] is [removelast]. *)
Definition simplify (vs : list Point) (tolerance : R) : list Point :=
  if (length vs <=? 2)%nat then vs
  else
    let wasClosedDuplicate := isClosed vs && (1 <? length vs)%nat in
    let effectiveVertices := if wasClosedDuplicate then removelast vs else vs in
    let simplified := simplify_loop effectiveVertices tolerance [vtx vs 0] in
    let simplified :=
      if (1 <? length effectiveVertices)%nat
      then simplified ++ [vtx effectiveVertices (length effectiveVertices - 1)]
      else simplified in
    if wasClosedDuplicate && (1 <? length simplified)%nat &&
       negb (Point_equals (vtx simplified 0) (vtx simplified (length simplified - 1)) eps)
    then simplified ++ [vtx simplified 0]
    else simplified.

(** One step [x_i * y_j - x_j * y_i] of the shoelace sum, and the sum of a
    function over a list of vertex pairs. *)
Definition cross (p q : Point) : R := x p * y q - x q * y p.
Definition psum (F : Point -> Point -> R) (l : list (Point * Point)) : R :=
  fold_right (fun '(p, q) acc => F p q + acc) 0 l.

End RealGeom.

(** * Proofs *)

(** ** Numbers *)

Lemma ltb_spec (a b : Q) : ltb a b = true <-> a < b.
Proof.
  unfold ltb. rewrite negb_true_iff. split; intro H.
  - apply Qnot_le_lt. intro H'. apply Qle_bool_iff in H'. congruence.
  - destruct (Qle_bool b a) eqn:E; [|reflexivity].
    apply Qle_bool_iff in E. exfalso. apply (Qlt_not_le a b); assumption.
Qed.

Lemma ltb_false (a b : Q) : ltb a b = false <-> b <= a.
Proof.
  unfold ltb. rewrite negb_false_iff. apply Qle_bool_iff.
Qed.

Lemma leb_spec (a b : Q) : leb a b = true <-> a <= b.
Proof. apply Qle_bool_iff. Qed.

Lemma leb_false (a b : Q) : leb a b = false <-> b < a.
Proof.
  unfold leb. split; intro H.
  - apply Qnot_le_lt. intro H'. apply Qle_bool_iff in H'. congruence.
  - destruct (Qle_bool a b) eqn:E; [|reflexivity].
    apply Qle_bool_iff in E. exfalso. apply (Qlt_not_le b a); assumption.
Qed.

Lemma eqb_spec (a b : Q) : eqb a b = true <-> a == b.
Proof. apply Qeq_bool_iff. Qed.


(** ** Line *)

(** Cramer's rule for the system [p0 + s1 * t = p2 + s2 * s]. *)
Lemma cramer (p0x p0y s1x s1y p2x p2y s2x s2y s t : Q) :
  ~ (- s2x * s1y + s1x * s2y) == 0 ->
  (p0x + s1x * t == p2x + s2x * s /\ p0y + s1y * t == p2y + s2y * s) <->
  (s == (- s1y * (p0x - p2x) + s1x * (p0y - p2y)) / (- s2x * s1y + s1x * s2y) /\
   t == (s2x * (p0y - p2y) - s2y * (p0x - p2x)) / (- s2x * s1y + s1x * s2y)).
Proof.
  intro Hd. split.
  - intros [H1 H2]. split.
    + assert (E : s * (- s2x * s1y + s1x * s2y) == - s1y * (p0x - p2x) + s1x * (p0y - p2y)) by nra.
      rewrite <- E. field. exact Hd.
    + assert (E : t * (- s2x * s1y + s1x * s2y) == s2x * (p0y - p2y) - s2y * (p0x - p2x)) by nra.
      rewrite <- E. field. exact Hd.
  - intros [Hs Ht]. rewrite Hs, Ht. split; field; exact Hd.
Qed.

(** Claim C1.  [Line.intersects] returns [null] whenever the magnitude of the
    determinant of the 2x2 system for the segment parameters is below
    [1e-10] (so collinear and overlapping collinear segments always give
    [null]); otherwise it returns a point exactly when the solution [(s, t)]
    of the system has both parameters in [[0,1]], and that point is
    [A.start + t * (A.end - A.start)].  The segments (0,0)-(10,0) and
    (5,-5)-(5,5) meet at (5,0). *)
Theorem Line_intersects_C1 (A B : Line) :
  (Qabs (Line_denominator A B) < eps -> Line_intersects A B = None) /\
  (eps <= Qabs (Line_denominator A B) ->
     match Line_intersects A B with
     | Some q => exists s t, solves A B s t /\ in01 s /\ in01 t /\ q ==P Line_pointAt A t
     | None => forall s t, solves A B s t -> ~ (in01 s /\ in01 t)
     end) /\
  (match Line_intersects (mkLine (mkPoint 0 0) (mkPoint 10 0))
                         (mkLine (mkPoint 5 (-5)) (mkPoint 5 5)) with
   | Some q => q ==P mkPoint 5 0
   | None => False
   end).
Proof.
  split; [|split].
  - intro H. unfold Line_intersects. unfold Line_denominator in H.
    apply ltb_spec in H. rewrite H. reflexivity.
  - intro H. unfold Line_denominator in H.
    destruct A as [[a b] [c d]], B as [[e f] [g h]].
    unfold Line_intersects, solves, Line_pointAt, Point_lerp, Peq, in01. cbn [x y start end_] in *.
    assert (Hd : ~ (- (g - e) * (d - b) + (c - a) * (h - f)) == 0).
    { intro Hz. rewrite Hz in H. unfold eps in H.
      apply (Qle_not_lt _ _ H). reflexivity. }
    assert (Hn : ltb (Qabs (- (g - e) * (d - b) + (c - a) * (h - f))) eps = false)
      by (apply ltb_false; exact H).
    rewrite Hn.
    set (s0 := (- (d - b) * (a - e) + (c - a) * (b - f)) / (- (g - e) * (d - b) + (c - a) * (h - f))).
    set (t0 := ((g - e) * (b - f) - (h - f) * (a - e)) / (- (g - e) * (d - b) + (c - a) * (h - f))).
    destruct (leb 0 s0 && leb s0 1 && leb 0 t0 && leb t0 1) eqn:E.
    + repeat rewrite andb_true_iff in E. destruct E as [[[E1 E2] E3] E4].
      apply leb_spec in E1, E2, E3, E4.
      exists s0, t0. split; [|split; [split; assumption|split; [split; assumption|]]].
      * apply cramer; [exact Hd|]. split; reflexivity.
      * cbn [x y]. split; ring.
    + intros s t [H1 H2] [[Hs0 Hs1] [Ht0 Ht1]].
      destruct (proj1 (cramer a b (c - a) (d - b) e f (g - e) (h - f) s t Hd) (conj H1 H2))
        as [Es Et].
      fold s0 in Es. fold t0 in Et.
      repeat rewrite andb_false_iff in E.
      destruct E as [[[E|E]|E]|E]; apply leb_false in E;
        [rewrite Es in Hs0 | rewrite Es in Hs1 | rewrite Et in Ht0 | rewrite Et in Ht1];
        eapply Qlt_not_le; eauto.
  - vm_compute. split; reflexivity.
Qed.

Module RectProofs.
Import Rect.

(** ** Rectangle *)

Lemma overlap_iff (a b c d : Q) : a <= b -> c <= d ->
  overlap a b c d <-> ~ (b < c \/ d < a).
Proof.
  intros Hab Hcd. unfold overlap. split.
  - intros [u [[H1 H2] [H3 H4]]] [H|H]; lra.
  - intro H. destruct (Qlt_le_dec a c).
    + exists c. destruct (Qlt_le_dec b c); [exfalso; apply H; left; assumption|].
      split; split; lra.
    + exists a. destruct (Qlt_le_dec d a); [exfalso; apply H; right; assumption|].
      split; split; lra.
Qed.

(** Claim C5.  For normalized rectangles, [A.intersects(B)] holds exactly when
    the x-intervals and the y-intervals of [A] and [B] share a point (touching
    edges and corners count), so it is false exactly when the rectangles are
    strictly separated along an axis; [A.intersection(B)] is [null] exactly
    when [A.intersects(B)] is false, and otherwise has left [max(A.x,B.x)],
    top [max(A.y,B.y)], right [min(A.right,B.right)] and bottom
    [min(A.bottom,B.bottom)]. *)
Theorem Rectangle_intersects_C5 (A B : Rectangle) :
  normalized A -> normalized B ->
  (intersects A B = true <->
     overlap (x A) (right A) (x B) (right B) /\ overlap (y A) (bottom A) (y B) (bottom B)) /\
  (intersection A B = None <-> intersects A B = false) /\
  (forall r, intersection A B = Some r ->
     x r == Qmax (x A) (x B) /\ y r == Qmax (y A) (y B) /\
     right r == Qmin (right A) (right B) /\ bottom r == Qmin (bottom A) (bottom B)).
Proof.
  intros [HwA HhA] [HwB HhB].
  split; [|split].
  - unfold intersects. rewrite negb_true_iff.
    rewrite (overlap_iff (x A)), (overlap_iff (y A)) by (unfold right, bottom; lra).
    repeat rewrite orb_false_iff. repeat rewrite ltb_false.
    split.
    + intros [[[H1 H2] H3] H4]. split; intros [H|H]; lra.
    + intros [H1 H2]. repeat split; apply Qnot_lt_le; intro; tauto.
  - unfold intersection. destruct (intersects A B); simpl; split; congruence.
  - intros r. unfold intersection. destruct (intersects A B); simpl; [|congruence].
    intro E. injection E as <-. unfold right, bottom. simpl. repeat split; ring.
Qed.

Lemma Rectangle_intersects_C5_witness :
  normalized (mkRectangle 0 0 2 2) /\ normalized (mkRectangle 2 1 3 3) /\
  intersects (mkRectangle 0 0 2 2) (mkRectangle 2 1 3 3) = true /\
  ((intersects (mkRectangle 0 0 2 2) (mkRectangle 2 1 3 3) = true <->
     overlap 0 (right (mkRectangle 0 0 2 2)) 2 (right (mkRectangle 2 1 3 3)) /\
     overlap 0 (bottom (mkRectangle 0 0 2 2)) 1 (bottom (mkRectangle 2 1 3 3))) /\
   (intersection (mkRectangle 0 0 2 2) (mkRectangle 2 1 3 3) = None <->
      intersects (mkRectangle 0 0 2 2) (mkRectangle 2 1 3 3) = false) /\
   (forall r, intersection (mkRectangle 0 0 2 2) (mkRectangle 2 1 3 3) = Some r ->
     x r == Qmax 0 2 /\ y r == Qmax 0 1 /\
     right r == Qmin (right (mkRectangle 0 0 2 2)) (right (mkRectangle 2 1 3 3)) /\
     bottom r == Qmin (bottom (mkRectangle 0 0 2 2)) (bottom (mkRectangle 2 1 3 3)))).
Proof.
  assert (HA : normalized (mkRectangle 0 0 2 2)) by (split; simpl; lra).
  assert (HB : normalized (mkRectangle 2 1 3 3)) by (split; simpl; lra).
  split; [exact HA|split; [exact HB|split; [vm_compute; reflexivity|]]].
  exact (Rectangle_intersects_C5 (mkRectangle 0 0 2 2) (mkRectangle 2 1 3 3) HA HB).
Defined.
End RectProofs.

(** ** Rectangle: construction, containment and composition *)

Lemma Qabs_spec_le (a : Q) : (0 <= a /\ Qabs a == a) \/ (a <= 0 /\ Qabs a == - a).
Proof.
  destruct (Qlt_le_dec a 0) as [H|H].
  - right. split; [lra|]. apply Qabs_neg. lra.
  - left. split; [lra|]. apply Qabs_pos. lra.
Qed.

(** Replaces each [Qmin a b], [Qmax a b] and [Qabs a] by a fresh number
    together with its case analysis. *)
Ltac gen_minmax :=
  repeat match goal with
  | |- context [Qmin ?a ?b] => let m := fresh "m" in
      pose proof (Q.min_spec_le a b); set (m := Qmin a b) in *; clearbody m
  | |- context [Qmax ?a ?b] => let m := fresh "m" in
      pose proof (Q.max_spec_le a b); set (m := Qmax a b) in *; clearbody m
  | |- context [Qabs ?a] => let m := fresh "m" in
      pose proof (Qabs_spec_le a); set (m := Qabs a) in *; clearbody m
  | H : context [Qmin ?a ?b] |- _ => let m := fresh "m" in
      pose proof (Q.min_spec_le a b); set (m := Qmin a b) in *; clearbody m
  | H : context [Qmax ?a ?b] |- _ => let m := fresh "m" in
      pose proof (Q.max_spec_le a b); set (m := Qmax a b) in *; clearbody m
  | H : context [Qabs ?a] |- _ => let m := fresh "m" in
      pose proof (Qabs_spec_le a); set (m := Qabs a) in *; clearbody m
  end.

(** Turns the boolean comparisons of the goal and the hypotheses into
    propositions. *)
Ltac qbool :=
  repeat (rewrite ?andb_true_iff, ?orb_true_iff, ?andb_false_iff, ?orb_false_iff,
                  ?negb_true_iff, ?negb_false_iff, ?leb_spec, ?ltb_spec,
                  ?leb_false, ?ltb_false in * ).

(** Reduces the field projections of records built in place. *)
Ltac proj := cbn [x y start end_ Rect.x Rect.y Rect.width Rect.height] in *.

(** Rewrites each [Qmin a b] and [Qmax a b] whose arguments [lra] can order. *)
Ltac simp_minmax :=
  repeat match goal with
  | |- context [Qmin ?a ?b] =>
      first [ rewrite (Q.min_l a b) by lra | rewrite (Q.min_r a b) by lra ]
  | |- context [Qmax ?a ?b] =>
      first [ rewrite (Q.max_l a b) by lra | rewrite (Q.max_r a b) by lra ]
  end.

Module RectOps.
Import Rect.

Lemma normalize_id (r : Rectangle) : normalized r -> normalize r = r.
Proof.
  destruct r as [a b w h]. intros [Hw Hh]. cbn in Hw, Hh. unfold normalize. cbn.
  rewrite (proj2 (ltb_false w 0) Hw). cbn. rewrite (proj2 (ltb_false h 0) Hh).
  reflexivity.
Qed.

(** [normalize()] leaves a non-negative width and height and the same
    horizontal and vertical extent: its left and right edges are the smaller
    and the larger of the old [x] and [x + width], and likewise vertically;
    normalizing twice is normalizing once. *)
Theorem Rectangle_normalize_extent (r : Rectangle) :
  normalized (normalize r) /\
  x (normalize r) == Qmin (x r) (right r) /\ right (normalize r) == Qmax (x r) (right r) /\
  y (normalize r) == Qmin (y r) (bottom r) /\ bottom (normalize r) == Qmax (y r) (bottom r) /\
  normalize (normalize r) = normalize r.
Proof.
  assert (Hn : normalized (normalize r)).
  { destruct r as [a b w h]. unfold normalize, normalized. cbn.
    destruct (ltb w 0) eqn:Ew; cbn; destruct (ltb h 0) eqn:Eh; cbn; qbool; split; lra. }
  split; [exact Hn|]. split; [|split; [|split; [|split; [|apply normalize_id, Hn]]]];
  destruct r as [a b w h]; unfold normalize, right, bottom; cbn;
    destruct (ltb w 0) eqn:Ew; cbn; destruct (ltb h 0) eqn:Eh; cbn; qbool;
    gen_minmax; lra.
Qed.

(** [Rectangle.fromPoints(p1, p2)] is the least rectangle holding both
    points: it is normalized, contains [p1] and [p2], and every rectangle that
    contains [p1] and [p2] contains it. *)
Theorem Rectangle_fromPoints_least (p1 p2 : Point) :
  normalized (fromPoints p1 p2) /\
  contains_point (fromPoints p1 p2) p1 = true /\
  contains_point (fromPoints p1 p2) p2 = true /\
  (forall r, contains_point r p1 = true -> contains_point r p2 = true ->
             contains_rect r (fromPoints p1 p2) = true).
Proof.
  unfold normalized, contains_point, contains_rect, fromPoints, right, bottom. proj.
  split; [|split; [|split]].
  - gen_minmax. split; lra.
  - qbool. gen_minmax. lra.
  - qbool. gen_minmax. lra.
  - intros r H1 H2. qbool. gen_minmax. lra.
Qed.

(** [Rectangle.union(rect1, rect2)] is the least rectangle containing both:
    it contains each of them, and every rectangle containing both contains
    it. *)
Theorem Rectangle_union_least (A B : Rectangle) :
  contains_rect (union A B) A = true /\ contains_rect (union A B) B = true /\
  (forall C, contains_rect C A = true -> contains_rect C B = true ->
             contains_rect C (union A B) = true).
Proof.
  unfold contains_rect, union, right, bottom. proj.
  split; [|split].
  - qbool. gen_minmax. lra.
  - qbool. gen_minmax. lra.
  - intros C HA HB. qbool. gen_minmax. lra.
Qed.

(** [A.intersection(B)] holds exactly the points common to [A] and [B], and
    when it is [null] no point lies in both. *)
Theorem Rectangle_intersection_points (A B : Rectangle) :
  match intersection A B with
  | Some Ri => forall p, contains_point Ri p = true <->
                        contains_point A p = true /\ contains_point B p = true
  | None => forall p, contains_point A p = true -> contains_point B p = false
  end.
Proof.
  unfold intersection, intersects.
  destruct (ltb (right A) (x B) || ltb (right B) (x A) || ltb (bottom A) (y B)
            || ltb (bottom B) (y A)) eqn:E; cbn.
  - intros p HA. destruct (contains_point B p) eqn:F; [|reflexivity].
    exfalso. unfold contains_point, right, bottom in *. qbool. lra.
  - intro p. unfold contains_point, right, bottom in *. proj. qbool. gen_minmax.
    split; intro Hc; qbool; lra.
Qed.

(** For a normalized [B], [A.contains(B)] holds exactly when every point of
    [B] is a point of [A]. *)
Theorem Rectangle_contains_rect_points (A B : Rectangle) (HB : normalized B) :
  contains_rect A B = true <->
  forall p, contains_point B p = true -> contains_point A p = true.
Proof.
  destruct HB as [Hw Hh]. unfold contains_rect, contains_point, right, bottom. split.
  - intros H p Hp. qbool. lra.
  - intro H.
    pose proof (H (mkPoint (x B) (y B))) as H1.
    pose proof (H (mkPoint (x B + width B) (y B + height B))) as H2.
    cbn in H1, H2. qbool.
    destruct H1 as [[[H1a H1b] H1c] H1d]; [lra|].
    destruct H2 as [[[H2a H2b] H2c] H2d]; [lra|].
    lra.
Qed.

(** [Rectangle.fromCenter(c, w, h).center()] is [c], and rebuilding a
    rectangle from its [center()], [width] and [height] gives it back. *)
Theorem Rectangle_fromCenter_center (c : Point) (w h : Q) (r : Rectangle) :
  center (fromCenter c w h) ==P c /\ eqv (fromCenter (center r) (width r) (height r)) r.
Proof.
  unfold center, fromCenter, centerX, centerY, eqv, Peq. proj.
  split; [split|repeat split]; ring.
Qed.

(** [expand] composes additively and [expand(-a)] undoes [expand(a)]; it
    keeps the center; a non-negative amount gives a rectangle containing the
    original one. *)
Theorem Rectangle_expand_compose (r : Rectangle) (a b : Q) :
  eqv (expand (expand r a) b) (expand r (a + b)) /\
  eqv (expand (expand r a) (- a)) r /\
  center (expand r a) ==P center r /\
  (0 <= a -> contains_rect (expand r a) r = true).
Proof.
  unfold eqv, expand, center, centerX, centerY, Peq. proj.
  split; [repeat split; ring|split; [repeat split; ring|split; [split; field|]]].
  intro Ha. unfold contains_rect, right, bottom. proj. qbool. lra.
Qed.

Lemma Rectangle_contains_rect_points_witness :
  normalized (mkRectangle 1 1 1 1) /\
  (contains_rect (mkRectangle 0 0 3 3) (mkRectangle 1 1 1 1) = true <->
   forall p, contains_point (mkRectangle 1 1 1 1) p = true ->
             contains_point (mkRectangle 0 0 3 3) p = true).
Proof.
  assert (HB : normalized (mkRectangle 1 1 1 1)) by (split; proj; lra).
  split; [exact HB|]. exact (Rectangle_contains_rect_points _ _ HB).
Defined.

End RectOps.

(** ** Line: symmetry of [intersects], bounding box *)

Lemma leb_ext (a b c d : Q) : a == c -> b == d -> leb a b = leb c d.
Proof.
  intros H1 H2. destruct (leb c d) eqn:E.
  - apply leb_spec in E. apply leb_spec. rewrite H1, H2. exact E.
  - apply leb_false in E. apply leb_false. rewrite H1, H2. exact E.
Qed.

Lemma ltb_ext (a b c d : Q) : a == c -> b == d -> ltb a b = ltb c d.
Proof.
  intros H1 H2. destruct (ltb c d) eqn:E.
  - apply ltb_spec in E. apply ltb_spec. rewrite H1, H2. exact E.
  - apply ltb_false in E. apply ltb_false. rewrite H1, H2. exact E.
Qed.

Module LineOps.

(** [A.intersects(B)] and [B.intersects(A)] agree: both are [null], or both
    are points with the same coordinates. *)
Theorem Line_intersects_symmetric (A B : Line) :
  match Line_intersects A B, Line_intersects B A with
  | Some p, Some q => p ==P q
  | None, None => True
  | _, _ => False
  end.
Proof.
  destruct A as [[a b] [c d]], B as [[e f] [g h]].
  unfold Line_intersects. proj.
  set (D1 := - (g - e) * (d - b) + (c - a) * (h - f)).
  set (D2 := - (c - a) * (h - f) + (g - e) * (d - b)).
  assert (ED : D2 == - D1) by (unfold D1, D2; ring).
  assert (EA : Qabs D2 == Qabs D1) by (rewrite ED; apply Qabs_opp).
  rewrite (ltb_ext (Qabs D2) eps (Qabs D1) eps EA (Qeq_refl _)).
  destruct (ltb (Qabs D1) eps) eqn:Eps; [exact I|].
  apply ltb_false in Eps.
  assert (HD1 : ~ D1 == 0).
  { intro Hz. rewrite Hz in Eps. change (Qabs 0) with 0 in Eps. unfold eps in Eps. lra. }
  assert (HD2 : ~ D2 == 0) by (rewrite ED; intro Hz; apply HD1; lra).
  set (s1 := (- (d - b) * (a - e) + (c - a) * (b - f)) / D1).
  set (t1 := ((g - e) * (b - f) - (h - f) * (a - e)) / D1).
  set (s2 := (- (h - f) * (e - a) + (g - e) * (f - b)) / D2).
  set (t2 := ((c - a) * (f - b) - (d - b) * (e - a)) / D2).
  assert (Es : s2 == t1) by (unfold s2, t1; rewrite ED; field; exact HD1).
  assert (Et : t2 == s1) by (unfold t2, s1; rewrite ED; field; exact HD1).
  rewrite (leb_ext 0 s2 0 t1), (leb_ext s2 1 t1 1), (leb_ext 0 t2 0 s1), (leb_ext t2 1 s1 1)
    by (reflexivity || assumption).
  destruct (leb 0 s1) eqn:E1, (leb s1 1) eqn:E2, (leb 0 t1) eqn:E3, (leb t1 1) eqn:E4;
    cbn [andb]; try exact I.
  pose proof (proj2 (cramer a b (c - a) (d - b) e f (g - e) (h - f) s1 t1 HD1)
                    (conj (Qeq_refl _) (Qeq_refl _))) as [Hx Hy].
  unfold Peq. proj. rewrite Et. split; lra.
Qed.

(** [line.boundingBox()] is [Rectangle.fromPoints(start, end)]: normalized,
    and it contains every point [pointAt(t)] of the segment, [0 <= t <= 1]. *)
Theorem Line_boundingBox_covers (l : Line) :
  Rect.eqv (Line_boundingBox l) (Rect.fromPoints (start l) (end_ l)) /\
  Rect.normalized (Line_boundingBox l) /\
  (forall t, in01 t -> Rect.contains_point (Line_boundingBox l) (Line_pointAt l t) = true).
Proof.
  destruct l as [[a b] [c d]].
  unfold Line_boundingBox, Rect.fromPoints, Rect.eqv, Rect.normalized, Line_pointAt, Point_lerp.
  proj. split; [|split].
  - gen_minmax. repeat split; lra.
  - gen_minmax. split; lra.
  - intros t [H0 H1]. unfold Rect.contains_point, Rect.right, Rect.bottom. proj. qbool.
    assert (Hx : Qmin a c <= a + (c - a) * t <= Qmax a c).
    { gen_minmax. destruct (Qlt_le_dec a c); split; nra. }
    assert (Hy : Qmin b d <= b + (d - b) * t <= Qmax b d).
    { gen_minmax. destruct (Qlt_le_dec b d); split; nra. }
    gen_minmax. lra.
Qed.

End LineOps.

(** ** Vector *)

Module VecOps.
Import Vec.

(** [Vector.project(v, onto)] is the zero vector when [onto] has zero length;
    otherwise the residual [v - project(v, onto)] is orthogonal to [onto], the
    projection is parallel to [onto] (zero cross product), and projecting it
    again gives the same vector. *)
Theorem Vector_project_spec (v o : Point) :
  (x o * x o + y o * y o == 0 -> project v o = mkPoint 0 0) /\
  dot (Point_subtract v (project v o)) o == 0 /\
  cross (project v o) o == 0 /\
  project (project v o) o ==P project v o.
Proof.
  unfold project, Point_multiply. cbv zeta. proj.
  destruct (eqb (x o * x o + y o * y o) 0) eqn:E.
  - pose proof (proj1 (eqb_spec _ _) E) as E'.
    assert (Hx : x o == 0) by nra. assert (Hy : y o == 0) by nra.
    split; [reflexivity|]. unfold dot, cross, Peq, Point_subtract. proj.
    rewrite Hx, Hy.
    split; [ring|split; [ring|split; reflexivity]].
  - assert (HL : ~ x o * x o + y o * y o == 0).
    { intro Hz. apply eqb_spec in Hz. congruence. }
    split; [intro Hz; contradiction|].
    unfold dot, cross, Peq, Point_subtract. proj.
    split; [field; exact HL|split; [ring|]].
    split; field; exact HL.
Qed.

(** With a unit [normal], [Vector.reflect(v, normal)] keeps the squared
    length of [v], negates its component along [normal], and reflecting twice
    gives [v] back. *)
Theorem Vector_reflect_unit (v n : Point) (Hn : dot n n == 1) :
  dot (reflect v n) (reflect v n) == dot v v /\
  dot (reflect v n) n == - dot v n /\
  reflect (reflect v n) n ==P v.
Proof.
  unfold reflect, Peq. unfold dot in *. proj.
  set (N := x n * x n + y n * y n) in Hn.
  set (d := x v * x n + y v * y n).
  split; [|split; [|split]].
  - transitivity (x v * x v + y v * y v + 4 * d * d * (N - 1)); [unfold N, d; ring|].
    rewrite Hn. ring.
  - transitivity (- d + 2 * d * (1 - N)); [unfold N, d; ring|]. rewrite Hn. unfold d. ring.
  - transitivity (x v + 4 * d * x n * (N - 1)); [unfold N, d; ring|]. rewrite Hn. ring.
  - transitivity (y v + 4 * d * y n * (N - 1)); [unfold N, d; ring|]. rewrite Hn. ring.
Qed.

Lemma Vector_reflect_unit_witness :
  dot (mkPoint 1 0) (mkPoint 1 0) == 1 /\
  dot (reflect (mkPoint 3 4) (mkPoint 1 0)) (reflect (mkPoint 3 4) (mkPoint 1 0))
    == dot (mkPoint 3 4) (mkPoint 3 4) /\
  dot (reflect (mkPoint 3 4) (mkPoint 1 0)) (mkPoint 1 0) == - dot (mkPoint 3 4) (mkPoint 1 0) /\
  reflect (reflect (mkPoint 3 4) (mkPoint 1 0)) (mkPoint 1 0) ==P mkPoint 3 4.
Proof.
  assert (Hn : dot (mkPoint 1 0) (mkPoint 1 0) == 1) by reflexivity.
  split; [exact Hn|]. exact (Vector_reflect_unit (mkPoint 3 4) (mkPoint 1 0) Hn).
Defined.

End VecOps.

Module HeapProofs.
Import Heap.

(** ** Objects in a heap *)

(** Claim C6.  Both [Point.prototype.divide] and the static [Point.divide]
    throw [Error('Division by zero')] when the scalar is exactly 0, leaving
    the heap (so the receiver) unchanged; otherwise they return the point
    [(p.x / s, p.y / s)]: the instance method in the receiver itself, the
    static one in a new object, the argument left unchanged. *)
Theorem Point_divide_C6 (h : heap) (l : loc) (p : Point) (s : Q) :
  wf h -> cells h !! l = Some p ->
  (s == 0 ->
     Point_divide l s h = (Throw "Division by zero"%string, h) /\
     Point_divide_static l s h = (Throw "Division by zero"%string, h)) /\
  (~ s == 0 ->
     (exists h', Point_divide l s h = (Ok l, h') /\
                 cells h' !! l = Some (mkPoint (x p / s) (y p / s))) /\
     (exists l' h', Point_divide_static l s h = (Ok l', h') /\
                    cells h' !! l' = Some (mkPoint (x p / s) (y p / s)) /\
                    cells h' !! l = Some p)).
Proof.
  intros Hwf Hl. split.
  - intro Hs. assert (E : eqb s 0 = true) by (apply eqb_spec; exact Hs).
    unfold Point_divide, Point_divide_static. rewrite E. split; reflexivity.
  - intro Hs. assert (E : eqb s 0 = false).
    { destruct (eqb s 0) eqn:E'; [|reflexivity]. apply eqb_spec in E'. contradiction. }
    unfold Point_divide, Point_divide_static. rewrite E.
    unfold bind, readP, writeP, ret, newPoint. rewrite Hl. cbn.
    split.
    + eexists. split; [reflexivity|]. cbn. apply lookup_insert_eq.
    + do 2 eexists. split; [reflexivity|]. cbn. split; [apply lookup_insert_eq|].
      rewrite lookup_insert_ne; [exact Hl|].
      intro Heq. assert (Hn : cells h !! l = None) by (apply Hwf; lia). congruence.
Qed.

(** Claim C10.  For an index outside [[0, vertexCount)], [getVertex] returns
    [null], and [removeVertex] and [setVertex] return the polygon unchanged,
    without throwing and without touching any [Point] object. *)
Theorem Polygon_out_of_range_C10 (h : heap) (poly : Polygon) (index : Z) (point : loc) :
  (index < 0 \/ Z.of_nat (length (vertices poly)) <= index)%Z ->
  getVertex poly index h = (Ok None, h) /\
  removeVertex poly index = poly /\
  setVertex poly index point h = (Ok poly, h).
Proof.
  intro Hi.
  assert (E1 : ((index <? 0) || (Z.of_nat (length (vertices poly)) <=? index))%Z = true).
  { apply orb_true_iff. destruct Hi; [left; apply Z.ltb_lt | right; apply Z.leb_le]; lia. }
  assert (E2 : ((0 <=? index) && (index <? Z.of_nat (length (vertices poly))))%Z = false).
  { apply andb_false_iff. destruct Hi; [left; apply Z.leb_gt | right; apply Z.ltb_ge]; lia. }
  unfold getVertex, removeVertex, setVertex. rewrite E1, E2. repeat split.
Qed.


Lemma clone_spec (h : heap) (v : loc) :
  wf h -> valid h v ->
  exists h', Point_clone v h = (Ok (next h), h') /\ wf h' /\ next h' = S (next h) /\
    cells h' !! next h = cells h !! v /\
    (forall l, (l < next h)%nat -> cells h' !! l = cells h !! l).
Proof.
  intros Hwf [p Hp]. unfold Point_clone, bind, readP, newPoint. rewrite Hp.
  eexists. split; [reflexivity|]. cbn [cells next].
  split; [|split; [reflexivity|split]].
  - intros l Hl. cbn [next cells] in *. rewrite lookup_insert_ne by lia. apply Hwf. lia.
  - apply lookup_insert_eq.
  - intros l Hl. rewrite lookup_insert_ne by lia. reflexivity.
Qed.

Lemma valid_lt (h : heap) (l : loc) : wf h -> valid h l -> (l < next h)%nat.
Proof.
  intros Hwf [p Hp]. destruct (decide (l < next h)%nat) as [|Hn]; [assumption|].
  rewrite Hwf in Hp by lia. discriminate.
Qed.

Lemma Forall2_transport (n : nat) (h h1 h2 : heap) (vs cs : list loc) :
  Forall (fun v => (v < n)%nat) vs ->
  (forall l, (l < n)%nat -> cells h1 !! l = cells h !! l) ->
  Forall2 (fun v c => cells h2 !! c = cells h1 !! v) vs cs ->
  Forall2 (fun v c => cells h2 !! c = cells h !! v) vs cs.
Proof.
  intros Hlt Hk H2. induction H2 as [|v c vs cs Hvc _ IH]; constructor.
  - inversion Hlt; subst. rewrite Hvc. apply Hk. assumption.
  - inversion Hlt; subst. apply IH. assumption.
Qed.

Lemma clone_all_spec (vs : list loc) (h : heap) :
  wf h -> Forall (valid h) vs ->
  exists cs h', clone_all vs h = (Ok cs, h') /\ wf h' /\ (next h <= next h')%nat /\
    (forall l, (l < next h)%nat -> cells h' !! l = cells h !! l) /\
    Forall2 (fun v c => cells h' !! c = cells h !! v) vs cs /\
    Forall (fun c => next h <= c)%nat cs.
Proof.
  revert h. induction vs as [|v vs IH]; intros h Hwf Hv.
  - exists [], h. repeat split; auto.
  - inversion Hv as [|? ? Hv1 Hvs]; subst.
    destruct (clone_spec h v Hwf Hv1) as (h1 & E1 & Hwf1 & Hn1 & Hc1 & Hk1).
    assert (Hvs1 : Forall (valid h1) vs).
    { eapply Forall_impl; [exact Hvs|]. intros l Hl. unfold valid.
      rewrite Hk1; [exact Hl|]. apply valid_lt; assumption. }
    destruct (IH h1 Hwf1 Hvs1) as (cs & h2 & E2 & Hwf2 & Hle2 & Hk2 & Hf2 & Hfr2).
    exists (next h :: cs), h2. cbn. unfold bind at 1. rewrite E1.
    unfold bind. rewrite E2. cbn. repeat split; auto.
    + lia.
    + intros l Hl. rewrite Hk2 by lia. apply Hk1. exact Hl.
    + constructor.
      * rewrite Hk2 by lia. exact Hc1.
      * apply (Forall2_transport (next h) h h1 h2); [|exact Hk1|exact Hf2].
        eapply Forall_impl; [exact Hvs|]. intros l Hl. apply valid_lt; assumption.
    + constructor; [lia|]. eapply Forall_impl; [exact Hfr2|]. intros c Hc. cbv beta in *. lia.
Qed.

Lemma detached_fresh (h h' : heap) (cs : list loc) :
  Forall (fun c => next h <= c)%nat cs -> detached h h' cs.
Proof.
  intro Hf. rewrite List.Forall_forall in Hf. split.
  - intros l0 p' Hl0 c Hc. cbn [writeP snd cells].
    rewrite lookup_insert_ne; [reflexivity|]. specialize (Hf c Hc). cbv beta in Hf. lia.
  - intros c p' Hc l0 Hl0. cbn [writeP snd cells].
    rewrite lookup_insert_ne; [reflexivity|]. specialize (Hf c Hc). cbv beta in Hf. lia.
Qed.

(** Claim C9 (as amended).  The [Polygon] constructor, [addVertex],
    [insertVertex] and [setVertex] store fresh copies of the incoming points,
    detached from every object that existed before the call (mutating the
    caller's point later does not change the stored vertex, and mutating the
    stored vertex does not change the caller's point); the [Circle] and
    [Line] constructors instead store the given [Point] object itself, so a
    later mutation of that point is seen through [center], [start] and [end]. *)
Theorem Polygon_owns_vertices_C9 (h : heap) (vs : list loc) (poly : Polygon)
    (index : Z) (point : loc) :
  wf h -> Forall (valid h) vs -> valid h point ->
  (exists poly' h', Polygon_new vs h = (Ok poly', h') /\
     Forall2 (fun v c => cells h' !! c = cells h !! v) vs (vertices poly') /\
     detached h h' (vertices poly')) /\
  (exists c h', addVertex poly point h = (Ok (mkPolygon (vertices poly ++ [c])), h') /\
     cells h' !! c = cells h !! point /\ detached h h' [c]) /\
  (exists c h', insertVertex poly index point h =
       (Ok (mkPolygon (firstn (splice_start (length (vertices poly)) index) (vertices poly)
                       ++ c :: skipn (splice_start (length (vertices poly)) index) (vertices poly))), h') /\
     cells h' !! c = cells h !! point /\ detached h h' [c]) /\
  ((0 <= index < Z.of_nat (length (vertices poly)))%Z ->
   exists c h', setVertex poly index point h =
       (Ok (mkPolygon (<[Z.to_nat index := c]> (vertices poly))), h') /\
     cells h' !! c = cells h !! point /\ detached h h' [c]) /\
  (forall (r : Q) (p' : Point),
     center (Circle_new point r) = point /\
     cells (snd (writeP point p' h)) !! center (Circle_new point r) = Some p') /\
  (forall (other : loc) (p' : Point),
     start (Line_new point other) = point /\ end_ (Line_new other point) = point /\
     cells (snd (writeP point p' h)) !! start (Line_new point other) = Some p').
Proof.
  intros Hwf Hvs Hp.
  destruct (clone_spec h point Hwf Hp) as (h1 & E1 & _ & Hn1 & Hc1 & _).
  assert (Hd1 : detached h h1 [next h]).
  { apply detached_fresh. constructor; [lia|constructor]. }
  split; [|split; [|split; [|split; [|split]]]].
  - destruct (clone_all_spec vs h Hwf Hvs) as (cs & h' & E & _ & _ & _ & Hf & Hfr).
    exists (mkPolygon cs), h'. unfold Polygon_new, bind. rewrite E.
    split; [reflexivity|]. split; [exact Hf|]. apply detached_fresh. exact Hfr.
  - exists (next h), h1. unfold addVertex, bind. rewrite E1. auto.
  - exists (next h), h1. unfold insertVertex, bind. rewrite E1. auto.
  - intro Hi. exists (next h), h1. unfold setVertex.
    replace ((0 <=? index) && (index <? Z.of_nat (length (vertices poly))))%Z with true
      by (symmetry; apply andb_true_iff; split; [apply Z.leb_le | apply Z.ltb_lt]; lia).
    unfold bind. rewrite E1. auto.
  - intros r p'. split; [reflexivity|]. cbn. apply lookup_insert_eq.
  - intros other p'. split; [reflexivity|split; [reflexivity|]]. cbn. apply lookup_insert_eq.
Qed.

(** Claim C9, counterexample: mutating the [Point] passed to [new Circle]
    changes the circle's center. *)
Lemma Circle_center_aliased_C9 :
  ~ (forall (h : heap) (l : loc) (r : Q) (p' : Point), wf h -> valid h l ->
       cells (snd (writeP l p' h)) !! center (Circle_new l r) =
       cells h !! center (Circle_new l r)).
Proof.
  intro H.
  set (h0 := mkHeap (<[0%nat := mkPoint 1 1]> ∅) 1%nat).
  assert (Hwf : wf h0).
  { intros l Hl. cbn in Hl. cbn [cells h0]. rewrite lookup_insert_ne by lia. apply lookup_empty. }
  assert (Hv : valid h0 0%nat) by (exists (mkPoint 1 1); reflexivity).
  specialize (H h0 0%nat 5 (mkPoint 7 7) Hwf Hv).
  vm_compute in H. discriminate H.
Qed.

Lemma heap_one_wf : wf heap_one.
Proof.
  intros l Hl. cbn in Hl. unfold heap_one. cbn [cells].
  rewrite lookup_insert_ne by lia. apply lookup_empty.
Qed.

Lemma heap_one_valid : valid heap_one 0%nat.
Proof. exists (mkPoint 4 6). reflexivity. Qed.

Lemma Point_divide_C6_witness :
  wf heap_one /\ cells heap_one !! 0%nat = Some (mkPoint 4 6) /\
  Point_divide 0%nat 0 heap_one = (Throw "Division by zero"%string, heap_one) /\
  exists h', Point_divide 0%nat 2 heap_one = (Ok 0%nat, h') /\
             cells h' !! 0%nat = Some (mkPoint (4 / 2) (6 / 2)).
Proof.
  split; [exact heap_one_wf|]. split; [reflexivity|]. split.
  - apply (Point_divide_C6 heap_one 0%nat (mkPoint 4 6) 0 heap_one_wf eq_refl).
    reflexivity.
  - apply (Point_divide_C6 heap_one 0%nat (mkPoint 4 6) 2 heap_one_wf eq_refl).
    intro H. discriminate H.
Defined.

Lemma Polygon_out_of_range_C10_witness :
  (5 < 0 \/ Z.of_nat (length (vertices (mkPolygon [0%nat]))) <= 5)%Z /\
  getVertex (mkPolygon [0%nat]) 5 heap_one = (Ok None, heap_one) /\
  removeVertex (mkPolygon [0%nat]) 5 = mkPolygon [0%nat] /\
  setVertex (mkPolygon [0%nat]) 5 0%nat heap_one = (Ok (mkPolygon [0%nat]), heap_one).
Proof.
  assert (Hi : (5 < 0 \/ Z.of_nat (length (vertices (mkPolygon [0%nat]))) <= 5)%Z)
    by (right; simpl; lia).
  split; [exact Hi|]. exact (Polygon_out_of_range_C10 heap_one (mkPolygon [0%nat]) 5 0%nat Hi).
Defined.

Lemma Polygon_owns_vertices_C9_witness :
  wf heap_one /\ Forall (valid heap_one) [0%nat] /\ valid heap_one 0%nat /\
  exists poly' h', Polygon_new [0%nat] heap_one = (Ok poly', h') /\
     Forall2 (fun v c => cells h' !! c = cells heap_one !! v) [0%nat] (vertices poly') /\
     detached heap_one h' (vertices poly').
Proof.
  assert (Hf : Forall (valid heap_one) [0%nat]) by (constructor; [exact heap_one_valid|constructor]).
  split; [exact heap_one_wf|]. split; [exact Hf|]. split; [exact heap_one_valid|].
  exact (proj1 (Polygon_owns_vertices_C9 heap_one [0%nat] (mkPolygon []) 0 0%nat
                  heap_one_wf Hf heap_one_valid)).
Defined.
End HeapProofs.

Module PolyProofs.
Import Poly.

Lemma fold_left_sum {A} (f : A -> Q) (l : list A) (a0 : Q) :
  fold_left (fun acc v => acc + f v) l a0 == a0 + fold_right (fun v acc => f v + acc) 0 l.
Proof.
  revert a0. induction l as [|a l IH]; intro a0; simpl.
  - ring.
  - rewrite IH. ring.
Qed.

Lemma fold_left_Point_add (l : list Point) (p0 : Point) :
  x (fold_left Point_add l p0) == x p0 + fold_right (fun v acc => x v + acc) 0 l /\
  y (fold_left Point_add l p0) == y p0 + fold_right (fun v acc => y v + acc) 0 l.
Proof.
  revert p0. induction l as [|a l IH]; intro p0; simpl.
  - split; ring.
  - destruct (IH (Point_add p0 a)) as [H1 H2]. rewrite H1, H2. simpl. split; ring.
Qed.

Lemma fold_left_centroid (l : list (Point * Point)) (cx cy sa : Q) :
  let r := fold_left (fun '(cx, cy, sa) '(p1, p2) =>
                   let crossProductTerm := x p1 * y p2 - x p2 * y p1 in
                   (cx + (x p1 + x p2) * crossProductTerm,
                    cy + (y p1 + y p2) * crossProductTerm,
                    sa + crossProductTerm)) l (cx, cy, sa) in
  fst (fst r) == cx + fold_right (fun '(p, q) acc => (x p + x q) * (x p * y q - x q * y p) + acc) 0 l /\
  snd (fst r) == cy + fold_right (fun '(p, q) acc => (y p + y q) * (x p * y q - x q * y p) + acc) 0 l /\
  snd r == sa + fold_right (fun '(p, q) acc => (x p * y q - x q * y p) + acc) 0 l.
Proof.
  revert cx cy sa. induction l as [|[p q] l IH]; intros cx cy sa; simpl.
  - repeat split; ring.
  - destruct (IH (cx + (x p + x q) * (x p * y q - x q * y p))
                 (cy + (y p + y q) * (x p * y q - x q * y p))
                 (sa + (x p * y q - x q * y p))) as [H1 [H2 H3]].
    simpl in H1, H2, H3. rewrite H1, H2, H3. repeat split; ring.
Qed.

(** Claim C8 (as amended). The centroid of the empty polygon is (0,0); with one
    or two vertices, or with a shoelace sum below 1e-10 in magnitude, it is the
    arithmetic mean of the vertices; otherwise it is the pair of weighted sums
    divided by 6 times the signed area (half the shoelace sum). *)
Theorem Polygon_centroid_C8 (vs : list Point) :
  (vs = [] -> centroid vs = Point_zero) /\
  ((length vs < 3)%nat \/ Qabs (shoelace vs) < eps ->
     forall m, mean vs = Some m -> centroid vs ==P m) /\
  ((3 <= length vs)%nat -> eps <= Qabs (shoelace vs) ->
     centroid vs ==P mkPoint (wsum_x vs / (6 * (shoelace vs / 2)))
                             (wsum_y vs / (6 * (shoelace vs / 2)))).
Proof.
  split; [|split].
  - intros ->. reflexivity.
  - intros Hc m Hm. destruct vs as [|v0 vs']; [discriminate|].
    set (vs := v0 :: vs') in *.
    injection Hm as <-. unfold centroid.
    replace (length vs =? 0)%nat with false by reflexivity.
    destruct (length vs <? 3)%nat eqn:E3.
    + cbn [x y]. unfold Peq. cbn [x y].
      rewrite !fold_left_sum. unfold vs. cbn [fold_right length].
      split; apply Qdiv_comp; [ring|reflexivity|ring|reflexivity].
    + apply Nat.ltb_ge in E3. destruct Hc as [Hc|Hc]; [lia|].
      destruct (fold_left _ (cycle_pairs vs) (0, 0, 0)) as [[cx cy] sa] eqn:Ef.
      pose proof (fold_left_centroid (cycle_pairs vs) 0 0 0) as Hf.
      cbv zeta in Hf. rewrite Ef in Hf. cbn [fst snd] in Hf. destruct Hf as [_ [_ Hsa]].
      assert (Hl : ltb (Qabs sa) eps = true).
      { apply ltb_spec. unfold shoelace in Hc. rewrite Hsa, Qplus_0_l. exact Hc. }
      rewrite Hl. destruct (fold_left_Point_add vs Point_zero) as [Hx Hy].
      unfold Peq. cbn [x y]. rewrite Hx, Hy. cbn [x y Point_zero].
      unfold vs. cbn [fold_right length].
      split; apply Qdiv_comp; [ring|reflexivity|ring|reflexivity].
  - intros H3 Hc. unfold centroid.
    replace (length vs =? 0)%nat with false by (symmetry; apply Nat.eqb_neq; lia).
    replace (length vs <? 3)%nat with false by (symmetry; apply Nat.ltb_ge; lia).
    destruct (fold_left _ (cycle_pairs vs) (0, 0, 0)) as [[cx cy] sa] eqn:Ef.
    pose proof (fold_left_centroid (cycle_pairs vs) 0 0 0) as Hf.
    cbv zeta in Hf. rewrite Ef in Hf. cbn [fst snd] in Hf. destruct Hf as [Hcx [Hcy Hsa]].
    assert (Hl : ltb (Qabs sa) eps = false).
    { apply ltb_false. unfold shoelace in Hc. rewrite Hsa, Qplus_0_l. exact Hc. }
    rewrite Hl. unfold Peq. cbn [x y]. unfold wsum_x, wsum_y, shoelace.
    rewrite Hcx, Hcy, Hsa. rewrite !Qplus_0_l. split; reflexivity.
Qed.

(** Claim C8, counterexample: the empty polygon has fewer than three vertices
    but no arithmetic mean; the code returns (0,0) for it by an explicit guard. *)
Lemma Polygon_centroid_C8_empty :
  ~ (forall vs : list Point, (length vs < 3)%nat \/ Qabs (shoelace vs) < eps ->
       exists m, mean vs = Some m /\ centroid vs ==P m).
Proof.
  intro H. destruct (H []) as [m [Hm _]].
  - left. simpl. lia.
  - discriminate Hm.
Qed.

(** Claim C4 (as amended). For two non-empty polygons, [intersects] holds iff
    some edge of one meets some edge of the other, or the first vertex of one
    lies inside the other: only vertex 0 of each polygon is tested. *)
Theorem Polygon_intersects_C4 (P1 P2 : list Point) :
  P1 <> [] -> P2 <> [] ->
  (intersects P1 P2 = true <->
     (exists e1 e2, In e1 (getEdges P1) /\ In e2 (getEdges P2) /\ Line_intersects e1 e2 <> None)
     \/ contains P2 (vtx P1 0) = true \/ contains P1 (vtx P2 0) = true).
Proof.
  intros H1 H2.
  assert (L1 : (0 < length P1)%nat) by (destruct P1; [congruence|simpl; lia]).
  assert (L2 : (0 < length P2)%nat) by (destruct P2; [congruence|simpl; lia]).
  unfold intersects.
  replace ((length P1 =? 0) || (length P2 =? 0))%nat with false
    by (symmetry; apply orb_false_iff; split; apply Nat.eqb_neq; lia).
  replace (0 <? length P1)%nat with true by (symmetry; apply Nat.ltb_lt; lia).
  replace (0 <? length P2)%nat with true by (symmetry; apply Nat.ltb_lt; lia).
  cbn [andb].
  destruct (existsb _ (getEdges P1)) eqn:Ee.
  - split; [intros _|reflexivity]. left.
    apply existsb_exists in Ee. destruct Ee as [e1 [He1 Ee]].
    apply existsb_exists in Ee. destruct Ee as [e2 [He2 Ee]].
    exists e1, e2. split; [exact He1|split; [exact He2|]].
    destruct (Line_intersects e1 e2); congruence.
  - assert (Hn : ~ exists e1 e2, In e1 (getEdges P1) /\ In e2 (getEdges P2) /\
                               Line_intersects e1 e2 <> None).
    { intros (e1 & e2 & He1 & He2 & Hi).
      assert (existsb (fun edge1 => existsb (fun edge2 =>
          match Line_intersects edge1 edge2 with Some _ => true | None => false end)
          (getEdges P2)) (getEdges P1) = true) as Ht.
      { apply existsb_exists. exists e1. split; [exact He1|].
        apply existsb_exists. exists e2. split; [exact He2|].
        destruct (Line_intersects e1 e2); congruence. }
      congruence. }
    destruct (contains P2 (vtx P1 0)); [tauto|].
    destruct (contains P1 (vtx P2 0)); [tauto|].
    split; [discriminate|]. intros [H|[H|H]]; [tauto|discriminate|discriminate].
Qed.

(** Claim C4, witness: a one-vertex polygon inside the unit square. *)
Lemma Polygon_intersects_C4_witness :
  unit_square <> [] /\ [mkPoint (1#2) (1#2)] <> [] /\
  contains unit_square (mkPoint (1#2) (1#2)) = true /\
  intersects [mkPoint (1#2) (1#2)] unit_square = true.
Proof.
  assert (H1 : [mkPoint (1#2) (1#2)] <> []) by discriminate.
  assert (H2 : unit_square <> []) by discriminate.
  assert (Hc : contains unit_square (mkPoint (1#2) (1#2)) = true) by (vm_compute; reflexivity).
  split; [exact H2|split; [exact H1|split; [exact Hc|]]].
  apply (Polygon_intersects_C4 [mkPoint (1#2) (1#2)] unit_square H1 H2).
  right; left. exact Hc.
Defined.

(** Claim C4, counterexample: a short vertical segment crossing the bottom edge
    of the unit square. Its second vertex is inside the square, but no edge
    pair passes the 1e-10 denominator test and its first vertex is outside, so
    [intersects] is false. *)
Lemma Polygon_intersects_C4_counterexample :
  ~ (forall P1 P2 : list Point, P1 <> [] -> P2 <> [] ->
       (intersects P1 P2 = true <->
          (exists e1 e2, In e1 (getEdges P1) /\ In e2 (getEdges P2) /\
                         Line_intersects e1 e2 <> None)
          \/ (exists v, In v P1 /\ contains P2 v = true)
          \/ (exists v, In v P2 /\ contains P1 v = true))).
Proof.
  intro H.
  set (P1 := [mkPoint (1#2) (-1#100000000000); mkPoint (1#2) (1#100000000000)]).
  assert (Hc : contains unit_square (mkPoint (1#2) (1#100000000000)) = true)
    by (vm_compute; reflexivity).
  assert (Hf : intersects P1 unit_square = false) by (vm_compute; reflexivity).
  destruct (H P1 unit_square ltac:(discriminate) ltac:(discriminate)) as [_ Hr].
  rewrite Hf in Hr. discriminate Hr.
  right; left. exists (mkPoint (1#2) (1#100000000000)). split; [simpl; tauto|exact Hc].
Qed.
End PolyProofs.

(** ** Polygon: closing, bounding box, rectangles *)

Module PolyOps.
Import Poly.

Lemma Point_equals_refl (v : Point) : Point_equals v v eps = true.
Proof.
  unfold Point_equals.
  rewrite (ltb_ext (Qabs (x v - x v)) eps 0 eps), (ltb_ext (Qabs (y v - y v)) eps 0 eps)
    by (try reflexivity; rewrite Qabs_pos; ring || lra).
  reflexivity.
Qed.

Lemma isClosed_snoc_first (vs : list Point) :
  (2 < length vs)%nat -> isClosed (vs ++ [vtx vs 0]) = true.
Proof.
  intro Hl. unfold isClosed. rewrite length_app. cbn [length].
  replace (2 <? length vs + 1)%nat with true by (symmetry; apply Nat.ltb_lt; lia).
  replace (length vs + 1 - 1)%nat with (length vs) by lia.
  unfold vtx at 1 2. rewrite app_nth1 by lia. unfold vtx at 1. rewrite nth_middle.
  apply Point_equals_refl.
Qed.

(** [close()] is idempotent; on more than two vertices it leaves a closed
    polygon ([isClosed()] holds), and on at most two it changes nothing. *)
Theorem Polygon_close_idempotent (vs : list Point) :
  close (close vs) = close vs /\
  ((2 < length vs)%nat -> isClosed (close vs) = true) /\
  ((length vs <= 2)%nat -> close vs = vs).
Proof.
  destruct (2 <? length vs)%nat eqn:L.
  - apply Nat.ltb_lt in L. unfold close at 2 3 4.
    rewrite (proj2 (Nat.ltb_lt 2 (length vs)) L).
    destruct (isClosed vs) eqn:C; cbn [negb andb].
    + split; [unfold close; rewrite (proj2 (Nat.ltb_lt 2 (length vs)) L), C; reflexivity|].
      split; [intros _; exact C|intro; lia].
    + assert (HC : isClosed (vs ++ [vtx vs 0]) = true) by (apply isClosed_snoc_first, L).
      split; [unfold close; rewrite HC, andb_false_r; reflexivity|].
      split; [intros _; exact HC|intro; lia].
  - apply Nat.ltb_ge in L.
    assert (E : close vs = vs).
    { unfold close. rewrite (proj2 (Nat.ltb_ge 2 (length vs)) L). reflexivity. }
    rewrite E, E. split; [reflexivity|split; [intro; lia|intros _; reflexivity]].
Qed.

Lemma bbox_fold (rest : list Point) : forall a b c d : Q,
  let '(a', b', c', d') :=
    fold_left (fun '(minX, maxX, minY, maxY) v =>
                 (Qmin minX (x v), Qmax maxX (x v), Qmin minY (y v), Qmax maxY (y v)))
              rest (a, b, c, d) in
  a' <= a /\ b <= b' /\ c' <= c /\ d <= d' /\
  (forall v, In v rest -> a' <= x v <= b' /\ c' <= y v <= d') /\
  (forall L R T B, L <= a -> b <= R -> T <= c -> d <= B ->
     (forall v, In v rest -> L <= x v <= R /\ T <= y v <= B) ->
     L <= a' /\ b' <= R /\ T <= c' /\ d' <= B).
Proof.
  induction rest as [|v r IH]; intros a b c d; cbn [fold_left].
  - repeat split; try lra; intros; try contradiction; lra.
  - specialize (IH (Qmin a (x v)) (Qmax b (x v)) (Qmin c (y v)) (Qmax d (y v))).
    destruct (fold_left _ r _) as [[[a' b'] c'] d'].
    destruct IH as (H1 & H2 & H3 & H4 & Hin & Hleast).
    pose proof (Q.le_min_l a (x v)). pose proof (Q.le_min_r a (x v)).
    pose proof (Q.le_max_l b (x v)). pose proof (Q.le_max_r b (x v)).
    pose proof (Q.le_min_l c (y v)). pose proof (Q.le_min_r c (y v)).
    pose proof (Q.le_max_l d (y v)). pose proof (Q.le_max_r d (y v)).
    split; [lra|split; [lra|split; [lra|split; [lra|split]]]].
    + intros w [<-|Hw]; [split; split; lra|exact (Hin w Hw)].
    + intros L R T B HL HR HT HB Hall.
      destruct (Hall v (or_introl eq_refl)) as [[Hv1 Hv2] [Hv3 Hv4]].
      apply Hleast; [apply Q.min_glb; lra|apply Q.max_lub; lra|
                     apply Q.min_glb; lra|apply Q.max_lub; lra|].
      intros w Hw. apply Hall. right. exact Hw.
Qed.

(** [boundingBox()] is [Rectangle(0, 0, 0, 0)] for no vertices; otherwise it
    is normalized, contains every vertex, and is contained in every rectangle
    that contains every vertex. *)
Theorem Polygon_boundingBox_least (vs : list Point) :
  (vs = [] -> boundingBox vs = Rect.mkRectangle 0 0 0 0) /\
  (vs <> [] ->
     Rect.normalized (boundingBox vs) /\
     (forall v, In v vs -> Rect.contains_point (boundingBox vs) v = true) /\
     (forall r, (forall v, In v vs -> Rect.contains_point r v = true) ->
                Rect.contains_rect r (boundingBox vs) = true)).
Proof.
  destruct vs as [|v0 rest]; [split; [reflexivity|congruence]|].
  split; [discriminate|intros _].
  unfold boundingBox.
  pose proof (bbox_fold rest (x v0) (x v0) (y v0) (y v0)) as H.
  destruct (fold_left _ rest _) as [[[a b] c] d].
  destruct H as (H1 & H2 & H3 & H4 & Hin & Hleast).
  unfold Rect.normalized, Rect.contains_point, Rect.contains_rect, Rect.right, Rect.bottom.
  proj. split; [split; lra|split].
  - intros v [<-|Hv]; qbool; [lra|]. destruct (Hin v Hv). lra.
  - intros r Hr.
    assert (Hr' : forall v, In v rest ->
              Rect.x r <= x v <= Rect.x r + Rect.width r /\
              Rect.y r <= y v <= Rect.y r + Rect.height r).
    { intros v Hv. specialize (Hr v (or_intror Hv)). unfold Rect.contains_point,
        Rect.right, Rect.bottom in Hr. qbool. lra. }
    pose proof (Hr v0 (or_introl eq_refl)) as H0.
    unfold Rect.contains_point, Rect.right, Rect.bottom in H0. qbool.
    destruct (Hleast (Rect.x r) (Rect.x r + Rect.width r) (Rect.y r)
                     (Rect.y r + Rect.height r)) as (G1 & G2 & G3 & G4).
    all: qbool; first [exact Hr' | lra].
Qed.

Lemma ltb_vert (a c t u : Q) : ltb a ((c - c) * t / u + c) = ltb a c.
Proof. apply ltb_ext; [reflexivity|]. unfold Qdiv. ring. Qed.

(** The polygon [Polygon.rectangle(x, y, w, h)] with [w, h > 0] contains (by
    the even-odd test) exactly the points of the half-open box
    [x <= p.x < x + w], [y <= p.y < y + h]: its left and top edges are inside,
    its right and bottom edges are not. *)
Theorem Polygon_rectangle_contains (x0 y0 w h : Q) (p : Point) (Hw : 0 < w) (Hh : 0 < h) :
  contains (rectangle x0 y0 w h) p = true <->
  (x0 <= x p < x0 + w /\ y0 <= y p < y0 + h).
Proof.
  unfold rectangle, close.
  destruct (isClosed _); cbn [negb andb length Nat.ltb Nat.leb app];
    unfold contains; cbn [length Nat.ltb Nat.leb vtx nth Nat.sub contains_loop]; proj;
    rewrite !xorb_nilpotent; cbn [andb]; rewrite !ltb_vert;
    destruct (ltb (y p) y0) eqn:A, (ltb (y p) (y0 + h)) eqn:B, (ltb (x p) x0) eqn:C,
      (ltb (x p) (x0 + w)) eqn:D; cbn; qbool; split; intro Hc;
    first [reflexivity | discriminate | lra | exfalso; lra].
Qed.

Lemma Polygon_rectangle_contains_witness :
  0 < 2 /\ 0 < 1 /\
  (contains (rectangle 0 0 2 1) (mkPoint 1 (1#2)) = true <->
   (0 <= x (mkPoint 1 (1#2)) < 0 + 2 /\ 0 <= y (mkPoint 1 (1#2)) < 0 + 1)).
Proof.
  assert (Hw : 0 < 2) by lra. assert (Hh : 0 < 1) by lra.
  split; [exact Hw|split; [exact Hh|]].
  exact (Polygon_rectangle_contains 0 0 2 1 (mkPoint 1 (1#2)) Hw Hh).
Defined.

(** For a normalized rectangle [r], the bounding box of
    [Polygon.fromRectangle(r)] is [r] again, and when the signed area is not
    below the tolerance the polygon's [centroid()] is [r.center()]. *)
Theorem Polygon_fromRectangle_roundtrip (r : Rect.Rectangle) (Hn : Rect.normalized r) :
  Rect.eqv (boundingBox (fromRectangle r)) r /\
  (eps <= Qabs (2 * (Rect.width r * Rect.height r)) ->
   centroid (fromRectangle r) ==P Rect.center r).
Proof.
  destruct r as [a b w h]. destruct Hn as [Hw Hh]. proj.
  unfold fromRectangle, rectangle, close. proj.
  destruct (isClosed _); cbn [negb andb length Nat.ltb Nat.leb app vtx nth].
  all: split; [unfold boundingBox, Rect.eqv; cbn [fold_left]; proj; simp_minmax; lra|].
  all: intro Ha; unfold centroid;
    cbn [length Nat.eqb Nat.ltb Nat.leb cycle_pairs rotl combine app fold_left]; proj.
  all: assert (Hwh : ~ w * h == 0) by
      (intro Hz; rewrite Hz in Ha; change (Qabs (2 * 0)) with 0 in Ha; unfold eps in Ha; lra).
  all: match goal with |- context [ltb (Qabs ?sa) eps] =>
         rewrite (ltb_ext (Qabs sa) eps (Qabs (2 * (w * h))) eps)
           by (reflexivity || (apply Qabs_wd; ring)) end.
  all: rewrite (proj2 (ltb_false _ _) Ha).
  all: unfold Peq, Rect.center, Rect.centerX, Rect.centerY; proj.
  all: split; field; intro Hz; apply Hwh; lra.
Qed.

Lemma Polygon_fromRectangle_roundtrip_witness :
  Rect.normalized (Rect.mkRectangle 1 2 4 3) /\
  Rect.eqv (boundingBox (fromRectangle (Rect.mkRectangle 1 2 4 3))) (Rect.mkRectangle 1 2 4 3) /\
  (eps <= Qabs (2 * (4 * 3)) ->
   centroid (fromRectangle (Rect.mkRectangle 1 2 4 3)) ==P Rect.center (Rect.mkRectangle 1 2 4 3)).
Proof.
  assert (Hn : Rect.normalized (Rect.mkRectangle 1 2 4 3)) by (split; proj; lra).
  split; [exact Hn|]. exact (Polygon_fromRectangle_roundtrip _ Hn).
Defined.

End PolyOps.

Module RealProofs.
Import RealGeom.
Local Open Scope R_scope.

Lemma ltb_true_R (a b : R) : ltb a b = true <-> a < b.
Proof. unfold ltb. destruct (Rlt_dec a b); split; intro; auto; discriminate. Qed.

Lemma ltb_false_R (a b : R) : ltb a b = false <-> b <= a.
Proof.
  unfold ltb. destruct (Rlt_dec a b) as [h|h]; split; intro H.
  - discriminate.
  - lra.
  - lra.
  - reflexivity.
Qed.

Lemma eps_pos : 0 < eps.
Proof. unfold eps. lra. Qed.

Lemma fold_left_area (l : list (Point * Point)) (a : R) :
  fold_left (fun acc '(vi, vj) => acc + x vi * y vj - x vj * y vi) l a =
  a + fold_right (fun '(p, q) acc => (x p * y q - x q * y p) + acc) 0 l.
Proof.
  revert a. induction l as [|[p q] l IH]; intro a; cbn.
  - ring.
  - rewrite IH. ring.
Qed.

Lemma shoelace_path (a : Point) (r : list Point) (z : Point) :
  fold_right (fun '(p, q) acc => (x p * y q - x q * y p) + acc) 0
             (combine (a :: r) (r ++ [z])) = path_sum (a :: r ++ [z]).
Proof.
  revert a. induction r as [|b r IH]; intro a.
  - cbn. ring.
  - change (combine (a :: b :: r) ((b :: r) ++ [z])) with
      ((a, b) :: combine (b :: r) (r ++ [z])).
    cbn [fold_right]. rewrite IH. reflexivity.
Qed.

Lemma shoelace_cons (a : Point) (r : list Point) :
  shoelace (a :: r) = path_sum (a :: r ++ [a]).
Proof. apply shoelace_path. Qed.

Lemma last_cons_irrel (b : Point) (l : list Point) (d1 d2 : Point) :
  List.last (b :: l) d1 = List.last (b :: l) d2.
Proof.
  revert b. induction l as [|c l IH]; intro b; [reflexivity|].
  change (List.last (c :: l) d1 = List.last (c :: l) d2). apply IH.
Qed.

Lemma path_sum_snoc (a : Point) (r : list Point) (z : Point) :
  path_sum (a :: r ++ [z]) = path_sum (a :: r) + (x (List.last (a :: r) a) * y z - x z * y (List.last (a :: r) a)).
Proof.
  revert a. induction r as [|b r IH]; intro a.
  - cbn. ring.
  - change (path_sum (a :: (b :: r) ++ [z])) with
      ((x a * y b - x b * y a) + path_sum (b :: r ++ [z])).
    rewrite IH.
    change (path_sum (a :: b :: r)) with ((x a * y b - x b * y a) + path_sum (b :: r)).
    replace (List.last (a :: b :: r) a) with (List.last (b :: r) b)
      by (change (List.last (a :: b :: r) a) with (List.last (b :: r) a);
          apply last_cons_irrel).
    ring.
Qed.

Lemma path_sum_rev (l : list Point) : path_sum (rev l) = - path_sum l.
Proof.
  induction l as [|a r IH].
  - cbn. ring.
  - destruct r as [|b r'].
    + cbn. ring.
    + cbn [rev].
      destruct (rev r' ++ [b]) as [|c r''] eqn:Erev.
      { destruct r'; cbn in Erev; [discriminate|]. apply app_eq_nil in Erev. destruct Erev as [_ Hn]. discriminate. }
      change ((c :: r'') ++ [a]) with (c :: r'' ++ [a]).
      rewrite path_sum_snoc.
      assert (Hl : List.last (c :: r'') c = b).
      { rewrite <- Erev. rewrite List.last_last. reflexivity. }
      rewrite Hl.
      change (rev (b :: r')) with (rev r' ++ [b]) in IH. rewrite Erev in IH. rewrite IH.
      change (path_sum (a :: b :: r')) with ((x a * y b - x b * y a) + path_sum (b :: r')).
      ring.
Qed.

Lemma path_sum_rotate (a c : Point) (l : list Point) :
  path_sum (c :: l ++ [a; c]) = path_sum (a :: c :: l ++ [a]).
Proof.
  replace (c :: l ++ [a; c]) with (c :: (l ++ [a]) ++ [c]) by (rewrite <- app_assoc; reflexivity).
  rewrite path_sum_snoc.
  replace (List.last (c :: l ++ [a]) c) with a.
  - change (path_sum (a :: c :: l ++ [a])) with ((x a * y c - x c * y a) + path_sum (c :: l ++ [a])).
    change (c :: l ++ [a]) with ((c :: l) ++ [a]). ring.
  - change (c :: l ++ [a]) with ((c :: l) ++ [a]). rewrite List.last_last. reflexivity.
Qed.

Lemma shoelace_rev (vs : list Point) : shoelace (rev vs) = - shoelace vs.
Proof.
  destruct vs as [|a r].
  - cbn. ring.
  - cbn [rev]. destruct (rev r) as [|c r''] eqn:Erev.
    + apply (f_equal (@rev Point)) in Erev. rewrite rev_involutive in Erev. subst r.
      cbn. ring.
    + change ((c :: r'') ++ [a]) with (c :: r'' ++ [a]).
      rewrite shoelace_cons, shoelace_cons.
      rewrite <- app_assoc. cbn [app]. rewrite path_sum_rotate.
      rewrite <- path_sum_rev.
      f_equal. cbn [rev]. rewrite rev_unit, Erev. reflexivity.
Qed.

Lemma area_shoelace (vs : list Point) :
  (3 <= length vs)%nat -> area vs = Rabs (shoelace vs / 2).
Proof.
  intro H. unfold area.
  replace (length vs <? 3)%nat with false by (symmetry; apply Nat.ltb_ge; lia).
  rewrite fold_left_area, Rplus_0_l. fold (cycle_pairs vs).
  change (fold_right (fun '(p, q) acc => (x p * y q - x q * y p) + acc) 0 (cycle_pairs vs))
    with (shoelace vs).
  unfold Rdiv. rewrite Rabs_mult, (Rabs_right (/ 2)); [reflexivity|lra].
Qed.

Lemma regular_square :
  regular (mkPoint 0 0) 1 4 =
  Some [mkPoint 1 0; mkPoint 0 1; mkPoint (-1) 0; mkPoint 0 (-1); mkPoint 1 0].
Proof.
  unfold regular. cbn [Nat.ltb Nat.leb].
  assert (Hs : 2 * PI / INR 4 = PI / 2) by (cbn [INR]; field).
  rewrite Hs.
  cbn [seq map].
  assert (H0 : INR 0 * (PI / 2) = 0) by (cbn [INR]; ring).
  assert (H1 : INR 1 * (PI / 2) = PI / 2) by (cbn [INR]; ring).
  assert (H2 : INR 2 * (PI / 2) = PI) by (cbn [INR]; field).
  assert (H3 : INR 3 * (PI / 2) = PI / 2 + PI) by (cbn [INR]; field).
  rewrite H0, H1, H2, H3.
  rewrite cos_0, sin_0, cos_PI2, sin_PI2, cos_PI, sin_PI, neg_cos, neg_sin, cos_PI2, sin_PI2.
  cbn [x y].
  replace (0 + 1 * 1) with 1 by ring.
  replace (0 + 1 * 0) with 0 by ring.
  replace (0 + 1 * -1) with (-1) by ring.
  replace (0 + 1 * - 0) with 0 by ring.
  replace (0 + 1 * Ropp 1) with (-1) by ring.
  unfold close, isClosed, Point_equals, vtx. cbn [length Nat.ltb Nat.leb nth Nat.sub x y andb].
  replace (ltb (Rabs (1 - 0)) eps) with false.
  - reflexivity.
  - symmetry. apply ltb_false_R. replace (1 - 0) with 1 by ring. rewrite Rabs_R1.
    unfold eps. lra.
Qed.

(** Claim C7. [area()] is 0 below three vertices and the absolute value of
    half the shoelace signed sum over the vertex cycle otherwise; reversing
    the vertex order (the other winding) leaves it unchanged; and the regular
    polygon with center (0,0), radius 1 and 4 sides has area 2. *)
Theorem Polygon_area_C7 :
  (forall vs : list Point, (length vs < 3)%nat -> area vs = 0) /\
  (forall vs : list Point, (3 <= length vs)%nat -> area vs = Rabs (shoelace vs / 2)) /\
  (forall vs : list Point, area (rev vs) = area vs) /\
  (match regular (mkPoint 0 0) 1 4 with Some vs => area vs = 2 | None => False end).
Proof.
  split; [|split; [|split]].
  - intros vs H. unfold area. replace (length vs <? 3)%nat with true
      by (symmetry; apply Nat.ltb_lt; exact H). reflexivity.
  - exact area_shoelace.
  - intro vs. destruct (Nat.lt_ge_cases (length vs) 3) as [H|H].
    + unfold area. rewrite length_rev.
      replace (length vs <? 3)%nat with true by (symmetry; apply Nat.ltb_lt; exact H).
      reflexivity.
    + rewrite (area_shoelace vs H), area_shoelace by (rewrite length_rev; exact H).
      rewrite shoelace_rev. unfold Rdiv. rewrite Ropp_mult_distr_l_reverse, Rabs_Ropp.
      reflexivity.
  - rewrite regular_square. unfold area. cbn [length Nat.ltb Nat.leb].
    rewrite fold_left_area. cbn. rewrite Rabs_right; lra.
Qed.

Lemma fromThreePoints_None (p1 p2 p3 : Point) :
  fromThreePoints p1 p2 p3 = None <->
  Rabs (2 * (x p1 * (y p2 - y p3) + x p2 * (y p3 - y p1) + x p3 * (y p1 - y p2))) < eps.
Proof.
  unfold fromThreePoints. cbv zeta.
  destruct (ltb _ eps) eqn:E.
  - apply ltb_true_R in E. split; [intros _; exact E|reflexivity].
  - apply ltb_false_R in E. split; [discriminate|lra].
Qed.

Lemma fromThreePoints_Some (p1 p2 p3 : Point) (c : Circle) :
  fromThreePoints p1 p2 p3 = Some c ->
  distance (center c) p1 = distance (center c) p2 /\
  distance (center c) p1 = distance (center c) p3 /\
  radius c = distance (center c) p1.
Proof.
  unfold fromThreePoints. cbv zeta.
  destruct (ltb _ eps) eqn:E; [discriminate|].
  apply ltb_false_R in E. pose proof eps_pos as He.
  set (D := 2 * (x p1 * (y p2 - y p3) + x p2 * (y p3 - y p1) + x p3 * (y p1 - y p2))) in *.
  assert (HD : D <> 0).
  { intro H0. rewrite H0, Rabs_R0 in E. lra. }
  intro H. injection H as <-. cbn [center radius].
  unfold distanceTo, distance. cbn [x y].
  split; [|split; [|reflexivity]]; f_equal; unfold D in *; field; intro Hz; apply HD; lra.
Qed.

Lemma fromThreePoints_example :
  fromThreePoints (mkPoint 0 0) (mkPoint 4 0) (mkPoint 0 4) =
  Some (mkCircle (mkPoint 2 2) (sqrt 8)).
Proof.
  unfold fromThreePoints, distanceTo, distance. cbv zeta. cbn [x y].
  replace (2 * (0 * (0 - 4) + 4 * (4 - 0) + 0 * (0 - 0))) with 32 by ring.
  replace ((0 * 0 + 0 * 0) * (0 - 4) + (4 * 4 + 0 * 0) * (4 - 0) + (0 * 0 + 4 * 4) * (0 - 0))
    with 64 by ring.
  replace ((0 * 0 + 0 * 0) * (0 - 4) + (4 * 4 + 0 * 0) * (0 - 0) + (0 * 0 + 4 * 4) * (4 - 0))
    with 64 by ring.
  replace (64 / 32) with 2 by field.
  replace ((0 - 2) * (0 - 2) + (0 - 2) * (0 - 2)) with 8 by ring.
  replace (ltb (Rabs 32) eps) with false; [reflexivity|].
  symmetry. apply ltb_false_R. rewrite Rabs_right by lra. unfold eps. lra.
Qed.

Lemma sqrt8_bounds : 2828 / 1000 < sqrt 8 < 2829 / 1000.
Proof.
  split.
  - replace (2828 / 1000) with (sqrt ((2828 / 1000) * (2828 / 1000)))
      by (rewrite sqrt_square; lra).
    apply sqrt_lt_1_alt. lra.
  - replace (2829 / 1000) with (sqrt ((2829 / 1000) * (2829 / 1000)))
      by (rewrite sqrt_square; lra).
    apply sqrt_lt_1_alt. lra.
Qed.

(** Claim C2. [Circle.fromThreePoints] returns [null] exactly when
    [|D| < 1e-10] with [D = 2 (x1 (y2 - y3) + x2 (y3 - y1) + x3 (y1 - y2))];
    otherwise its center is equidistant from the three points and its radius
    is the distance from the center to [p1]. On (0,0), (4,0), (0,4) it gives
    center (2,2) and radius sqrt 8, between 2.828 and 2.829; on the collinear
    (0,0), (1,0), (2,0) it gives [null]. *)
Theorem Circle_fromThreePoints_C2 :
  (forall p1 p2 p3 : Point,
     fromThreePoints p1 p2 p3 = None <->
     Rabs (2 * (x p1 * (y p2 - y p3) + x p2 * (y p3 - y p1) + x p3 * (y p1 - y p2)))
       < / 10000000000) /\
  (forall (p1 p2 p3 : Point) (c : Circle),
     fromThreePoints p1 p2 p3 = Some c ->
     distance (center c) p1 = distance (center c) p2 /\
     distance (center c) p1 = distance (center c) p3 /\
     radius c = distance (center c) p1) /\
  (match fromThreePoints (mkPoint 0 0) (mkPoint 4 0) (mkPoint 0 4) with
   | Some c => center c = mkPoint 2 2 /\ 2828 / 1000 < radius c < 2829 / 1000
   | None => False
   end) /\
  fromThreePoints (mkPoint 0 0) (mkPoint 1 0) (mkPoint 2 0) = None.
Proof.
  split; [|split; [|split]].
  - exact fromThreePoints_None.
  - exact fromThreePoints_Some.
  - rewrite fromThreePoints_example. cbn [center radius].
    split; [reflexivity|exact sqrt8_bounds].
  - apply fromThreePoints_None. cbn [x y].
    replace (2 * (0 * (0 - 0) + 1 * (0 - 0) + 2 * (0 - 0))) with 0 by ring.
    rewrite Rabs_R0. exact eps_pos.
Qed.

End RealProofs.

Module HullProofs.
Import Poly Hull.

Lemma example_hull :
  convexHull [mkPoint 0 0; mkPoint 1 1; mkPoint 0 1; mkPoint 1 0; mkPoint (1#2) (1#2)] =
  [mkPoint 0 0; mkPoint 1 0; mkPoint 1 1; mkPoint 0 1].
Proof. vm_compute. reflexivity. Qed.


(** ** The lexicographic order *)

Lemma lexle_refl (a : Point) : lexle a a.
Proof. right. split; lra. Qed.

Lemma lexle_trans (a b c : Point) : lexle a b -> lexle b c -> lexle a c.
Proof. unfold lexle. intros [H|[H1 H2]] [H'|[H1' H2']]; lra. Qed.

Lemma lexle_total (a b : Point) : lexle a b \/ lexle b a.
Proof.
  unfold lexle. destruct (Qlt_le_dec (x a) (x b)) as [H|H]; [left; left; exact H|].
  destruct (Qlt_le_dec (x b) (x a)) as [H'|H']; [right; left; exact H'|].
  destruct (Qlt_le_dec (y a) (y b)); [left|right]; right; split; lra.
Qed.

Lemma lexle_dec (a b : Point) : {lexle a b} + {~ lexle a b}.
Proof.
  unfold lexle. destruct (Qlt_le_dec (x a) (x b)) as [H|H]; [left; left; exact H|].
  destruct (Qeq_dec (x a) (x b)) as [E|E].
  - destruct (Qlt_le_dec (y b) (y a)) as [H'|H'].
    + right. intros [K|[_ K]]; lra.
    + left. right. split; assumption.
  - right. intros [K|[K _]]; [lra|contradiction].
Qed.

Lemma lexle_antisym (a b : Point) : lexle a b -> lexle b a -> x a == x b /\ y a == y b.
Proof. unfold lexle. intros [H|[H1 H2]] [H'|[H1' H2']]; split; lra. Qed.

Lemma not_lexle (a b : Point) : ~ lexle a b -> lexle b a.
Proof. intro H. destruct (lexle_total a b); [contradiction|assumption]. Qed.

(** [lexle o a] says that [a - o] lies in the half plane [x > 0 \/ (x = 0 /\ y >= 0)]. *)
Lemma cross_trans (x1 y1 x2 y2 x3 y3 : Q) :
  (0 < x1 \/ (x1 == 0 /\ 0 <= y1)) ->
  (0 < x2 \/ (x2 == 0 /\ 0 <= y2)) ->
  (0 < x3 \/ (x3 == 0 /\ 0 <= y3)) ->
  ~ (x2 == 0 /\ y2 == 0) ->
  0 <= x1 * y2 - y1 * x2 -> 0 <= x2 * y3 - y2 * x3 -> 0 <= x1 * y3 - y1 * x3.
Proof.
  intros H1 H2 H3 Hnz H12 H23.
  assert (Id : x2 * (x1 * y3 - y1 * x3) == x1 * (x2 * y3 - y2 * x3) + x3 * (x1 * y2 - y1 * x2))
    by ring.
  assert (Hx1 : 0 <= x1) by (destruct H1 as [H|[H _]]; lra).
  assert (Hx3 : 0 <= x3) by (destruct H3 as [H|[H _]]; lra).
  destruct H2 as [Hx2|[Hx2 Hy2]].
  - assert (0 <= x2 * (x1 * y3 - y1 * x3)).
    { rewrite Id. assert (0 <= x1 * (x2 * y3 - y2 * x3)) by (apply Qmult_le_0_compat; assumption). assert (0 <= x3 * (x1 * y2 - y1 * x2)) by (apply Qmult_le_0_compat; assumption). lra. }
    destruct (Qlt_le_dec (x1 * y3 - y1 * x3) 0) as [Hn|Hn]; [|exact Hn].
    exfalso. assert (x2 * (x1 * y3 - y1 * x3) < 0) by nra. lra.
  - assert (Hy2' : 0 < y2) by (destruct (Qeq_dec y2 0); [exfalso; tauto|lra]).
    rewrite Hx2 in H23. assert (Hx3' : x3 == 0) by nra.
    destruct H3 as [H3|[_ Hy3]]; [lra|].
    rewrite Hx3'. nra.
Qed.


Lemma lexle_nn (b a : Point) :
  lexle b a -> 0 < x a - x b \/ (x a - x b == 0 /\ 0 <= y a - y b).
Proof. unfold lexle. intros [H|[H1 H2]]; [left; lra|right; split; lra]. Qed.

Lemma cross_same (a p q : Point) : x a == x q -> y a == y q -> crossProduct a p q == 0.
Proof.
  intros Hx Hy. assert (E1 : y q - y a == 0) by lra. assert (E2 : x q - x a == 0) by lra.
  unfold crossProduct. rewrite E1, E2. ring.
Qed.

Lemma cross_same_l (b a p : Point) : x a == x b -> y a == y b -> crossProduct b a p == 0.
Proof.
  intros Hx Hy. assert (E1 : y a - y b == 0) by lra. assert (E2 : x a - x b == 0) by lra.
  unfold crossProduct. rewrite E1, E2. ring.
Qed.

(** ** The stacks *)

Lemma last_cons_irrel_Q (b : Point) (l : list Point) (d1 d2 : Point) :
  List.last (b :: l) d1 = List.last (b :: l) d2.
Proof.
  revert b. induction l as [|c l IH]; intro b; [reflexivity|].
  change (List.last (c :: l) d1 = List.last (c :: l) d2). apply IH.
Qed.

Lemma popWhile_cons2 (a b : Point) (r : list Point) (p : Point) :
  popWhile (a :: b :: r) p =
  if leb (crossProduct b a p) 0 then popWhile (b :: r) p else a :: b :: r.
Proof. reflexivity. Qed.

Lemma popWhile_suffix (st : list Point) (p : Point) : exists pre, st = pre ++ popWhile st p.
Proof.
  induction st as [|a r IH]; [exists []; reflexivity|].
  destruct r as [|b r']; [exists []; reflexivity|].
  rewrite popWhile_cons2. destruct (leb _ 0).
  - destruct IH as [pre Hpre]. exists (a :: pre). cbn [app]. rewrite <- Hpre. reflexivity.
  - exists []. reflexivity.
Qed.

Lemma popWhile_nonempty (st : list Point) (p : Point) : st <> [] -> popWhile st p <> [].
Proof.
  induction st as [|a r IH]; intro H; [exact H|].
  destruct r as [|b r']; [discriminate|].
  rewrite popWhile_cons2. destruct (leb _ 0); [apply IH; discriminate|discriminate].
Qed.

Lemma last_app_ne (l1 l2 : list Point) (d : Point) :
  l2 <> [] -> List.last (l1 ++ l2) d = List.last l2 d.
Proof.
  intro H. induction l1 as [|a l1 IH]; [reflexivity|].
  cbn [app]. rewrite <- IH. destruct (l1 ++ l2) eqn:E.
  - apply app_eq_nil in E. tauto.
  - reflexivity.
Qed.

Lemma st_edges_cons_incl (a : Point) (l : list Point) (e : Point * Point) :
  In e (st_edges l) -> In e (st_edges (a :: l)).
Proof. destruct l as [|b l]; [intros []|]. intro H. right. exact H. Qed.

Lemma st_edges_suffix (pre st : list Point) (e : Point * Point) :
  In e (st_edges st) -> In e (st_edges (pre ++ st)).
Proof.
  induction pre as [|a pre IH]; intro H; [exact H|].
  cbn [app]. apply st_edges_cons_incl. apply IH. exact H.
Qed.

Lemma st_edges_cons (a : Point) (l : list Point) (d : Point) :
  l <> [] -> st_edges (a :: l) = (hd d l, a) :: st_edges l.
Proof. destruct l; [congruence|reflexivity]. Qed.

Lemma edges_lex_hd (st : list Point) (d : Point) :
  (forall b a, In (b, a) (st_edges st) -> lexle b a) ->
  forall c, In c st -> lexle c (hd d st).
Proof.
  induction st as [|a r IH]; intros He c Hc; [destruct Hc|].
  destruct Hc as [<-|Hc]; [apply lexle_refl|].
  destruct r as [|b r']; [destruct Hc|].
  apply lexle_trans with b.
  - apply (IH (fun b' a' H => He b' a' (st_edges_cons_incl a _ _ H)) c Hc).
  - apply He. left. reflexivity.
Qed.


(** While [popWhile] pops, every scanned point [q] lexicographically above the
    current top [c] stays to the left of [(c, p)]; when it stops, all do. *)
Lemma popWhile_left (Pin : Point -> Prop) (bot p : Point) :
  forall st, st <> [] ->
  (forall c, In c st -> Pin c) ->
  (forall q, Pin q -> lexle bot q) ->
  List.last st bot = bot ->
  (forall b a, In (b, a) (st_edges st) ->
               lexle b a /\ forall q, Pin q -> 0 <= crossProduct b a q) ->
  (forall q, Pin q -> lexle q p) ->
  (forall q, Pin q -> lexle (hd bot st) q -> 0 <= crossProduct (hd bot st) p q) ->
  forall q, Pin q -> 0 <= crossProduct (hd bot (popWhile st p)) p q.
Proof.
  intro st. induction st as [|a r IH]; intros Hne Hmem Hbot Hlast Hedges Hp Htop;
    [congruence|].
  destruct r as [|b r'].
  - cbn in Hlast. subst a. intros q Hq. apply Htop; [exact Hq|exact (Hbot q Hq)].
  - destruct (Hedges b a (or_introl eq_refl)) as [Hba Hleft].
    rewrite popWhile_cons2. destruct (leb (crossProduct b a p) 0) eqn:E.
    + apply leb_spec in E. apply IH.
      * discriminate.
      * intros c Hc. apply Hmem. right. exact Hc.
      * exact Hbot.
      * exact Hlast.
      * intros b' a' H. apply Hedges. apply st_edges_cons_incl. exact H.
      * exact Hp.
      * intros q Hq Hbq. cbn [hd] in *.
        destruct (lexle_dec a q) as [Haq|Hnaq].
        -- assert (Id : crossProduct b p q ==
                        crossProduct a p q + crossProduct b a q - crossProduct b a p)
             by (unfold crossProduct; ring).
           rewrite Id. pose proof (Htop q Hq Haq). pose proof (Hleft q Hq). lra.
        -- assert (Hnz : ~ (x a - x b == 0 /\ y a - y b == 0)).
           { intros [H1 H2]. apply Hnaq. unfold lexle in *. lra. }
           pose proof (Hleft q Hq) as Hq'. unfold crossProduct in E, Hq' |- *.
           apply (cross_trans _ _ _ _ _ _ (lexle_nn _ _ (Hp b (Hmem b (or_intror (or_introl eq_refl)))))
                    (lexle_nn _ _ Hba) (lexle_nn _ _ Hbq) Hnz); lra.
    + apply leb_false in E. intros q Hq. cbn [hd] in *.
      destruct (lexle_dec a q) as [Haq|Hnaq]; [exact (Htop q Hq Haq)|].
      apply not_lexle in Hnaq.
      assert (Hnz : ~ (x a - x b == 0 /\ y a - y b == 0)).
      { intros [H1 H2]. pose proof (cross_same_l b a p ltac:(lra) ltac:(lra)). lra. }
      pose proof (Hleft q Hq) as Hq'.
      assert (Hap : lexle a p) by (apply Hp, Hmem; left; reflexivity).
      pose proof (cross_trans _ _ _ _ _ _ (lexle_nn _ _ Hnaq) (lexle_nn _ _ Hba)
                    (lexle_nn _ _ Hap) Hnz) as T.
      unfold crossProduct in E, Hq' |- *.
      assert (E1 : (x a - x q) * (y a - y b) - (y a - y q) * (x a - x b) ==
                   (x a - x b) * (y q - y b) - (y a - y b) * (x q - x b)) by ring.
      assert (E2 : (x a - x b) * (y p - y a) - (y a - y b) * (x p - x a) ==
                   (x a - x b) * (y p - y b) - (y a - y b) * (x p - x b)) by ring.
      assert (E3 : (x p - x a) * (y q - y a) - (y p - y a) * (x q - x a) ==
                   (x a - x q) * (y p - y a) - (y a - y q) * (x p - x a)) by ring.
      rewrite E3. apply T; [rewrite E1; exact Hq'|rewrite E2; lra].
Qed.


Lemma st_edges_in (st : list Point) (b a : Point) :
  In (b, a) (st_edges st) -> In b st /\ In a st.
Proof.
  induction st as [|c r IH]; intro H; [destruct H|].
  destruct r as [|d r']; [destruct H|].
  destruct H as [H|H].
  - injection H as <- <-. split; [right; left; reflexivity|left; reflexivity].
  - destruct (IH H) as [H1 H2]. split; right; assumption.
Qed.

Lemma In_last (st : list Point) (d : Point) : st <> [] -> In (List.last st d) st.
Proof.
  induction st as [|a r IH]; intro H; [congruence|].
  destruct r as [|b r']; [left; reflexivity|].
  right. apply IH. discriminate.
Qed.

Lemma pushPoint_inv (bot : Point) (st : list Point) (Pin : Point -> Prop) (p : Point) :
  hull_inv bot st Pin -> (forall q, Pin q -> lexle q p) ->
  hull_inv bot (pushPoint st p) (fun q => Pin q \/ q = p).
Proof.
  intros (Hne & Hlast & Hmem & Hord & Hedges) Hp.
  destruct (popWhile_suffix st p) as [pre Hpre].
  pose proof (popWhile_nonempty st p Hne) as Hne'.
  assert (Hleft : forall q, Pin q -> 0 <= crossProduct (hd bot (popWhile st p)) p q).
  { apply (popWhile_left Pin bot p st Hne Hmem (fun q Hq => proj1 (Hord q Hq)) Hlast
             Hedges Hp).
    intros q Hq Htq. destruct (lexle_antisym _ _ Htq (proj2 (Hord q Hq))) as [Hx Hy].
    rewrite (cross_same _ _ _ Hx Hy). lra. }
  unfold pushPoint. set (st' := popWhile st p) in *.
  assert (Hsub : forall c, In c st' -> In c st).
  { intros c Hc. rewrite Hpre. apply in_or_app. right. exact Hc. }
  assert (Hbot_in : Pin bot).
  { apply Hmem. rewrite <- Hlast at 1. apply In_last. exact Hne. }
  split; [discriminate|split; [|split; [|split]]].
  - change (p :: st') with ([p] ++ st'). rewrite last_app_ne by exact Hne'.
    rewrite <- (last_app_ne pre) by exact Hne'. rewrite <- Hpre. exact Hlast.
  - intros c [<-|Hc]; [right; reflexivity|left; apply Hmem, Hsub, Hc].
  - intros q [Hq| ->]; cbn [hd].
    + split; [exact (proj1 (Hord q Hq))|exact (Hp q Hq)].
    + split; [exact (Hp bot Hbot_in)|apply lexle_refl].
  - rewrite (st_edges_cons p st' bot Hne'). intros b a [He|He].
    + injection He as <- <-.
      split; [apply Hp, Hmem, Hsub; destruct st'; [congruence|left; reflexivity]|].
      intros q [Hq| ->]; [exact (Hleft q Hq)|].
      unfold crossProduct. ring_simplify. lra.
    + assert (He0 : In (b, a) (st_edges st)).
      { rewrite Hpre. apply st_edges_suffix. exact He. }
      destruct (Hedges b a He0) as [Hba Hba_left].
      split; [exact Hba|].
      intros q [Hq| ->]; [exact (Hba_left q Hq)|].
      set (t := hd bot st').
      destruct (st_edges_in st' b a He) as [Hb Ha].
      assert (Hat : lexle a t).
      { apply edges_lex_hd; [|exact Ha].
        intros b' a' H'. apply Hedges. rewrite Hpre. apply st_edges_suffix. exact H'. }
      assert (Ht : Pin t) by (apply Hmem, Hsub; unfold t; destruct st'; [congruence|left; reflexivity]).
      assert (HbP : Pin b) by (apply Hmem, Hsub, Hb).
      pose proof (Hba_left t Ht) as H1.
      pose proof (Hleft b HbP) as H2. fold t in H2.
      assert (Hbt : lexle b t) by exact (lexle_trans _ _ _ Hba Hat).
      destruct (Qeq_dec (x t - x b) 0) as [Ex|Ex];
        [destruct (Qeq_dec (y t - y b) 0) as [Ey|Ey]|].
      * assert (Hab : lexle a b) by (unfold lexle in *; lra).
        destruct (lexle_antisym _ _ Hab Hba) as [Hx Hy].
        rewrite (cross_same_l b a p ltac:(lra) ltac:(lra)). lra.
      * unfold crossProduct in H1, H2 |- *.
        apply (cross_trans _ _ _ _ _ _ (lexle_nn _ _ Hba) (lexle_nn _ _ Hbt)
                 (lexle_nn _ _ (Hp b HbP)) ltac:(tauto)); [exact H1|].
        assert (E : (x t - x b) * (y p - y b) - (y t - y b) * (x p - x b) ==
                    (x p - x t) * (y b - y t) - (y p - y t) * (x b - x t)) by ring.
        rewrite E. exact H2.
      * unfold crossProduct in H1, H2 |- *.
        apply (cross_trans _ _ _ _ _ _ (lexle_nn _ _ Hba) (lexle_nn _ _ Hbt)
                 (lexle_nn _ _ (Hp b HbP)) ltac:(tauto)); [exact H1|].
        assert (E : (x t - x b) * (y p - y b) - (y t - y b) * (x p - x b) ==
                    (x p - x t) * (y b - y t) - (y p - y t) * (x b - x t)) by ring.
        rewrite E. exact H2.
Qed.


Lemma hull_inv_ext (bot : Point) (st : list Point) (Pin Pin' : Point -> Prop) :
  (forall q, Pin q <-> Pin' q) -> hull_inv bot st Pin -> hull_inv bot st Pin'.
Proof.
  intros E (H1 & H2 & H3 & H4 & H5).
  split; [exact H1|split; [exact H2|split; [|split]]].
  - intros c Hc. apply E, H3, Hc.
  - intros q Hq. apply H4, E, Hq.
  - intros b a H. destruct (H5 b a H) as [Hl Hr]. split; [exact Hl|].
    intros q Hq. apply Hr, E, Hq.
Qed.

Lemma scan_inv (rest : list Point) :
  forall (bot : Point) (st : list Point) (Pin : Point -> Prop),
  hull_inv bot st Pin ->
  (forall q r, Pin q -> In r rest -> lexle q r) ->
  StronglySorted lexle rest ->
  hull_inv bot (fold_left pushPoint rest st) (fun q => Pin q \/ In q rest).
Proof.
  induction rest as [|p rest IH]; intros bot st Pin Hinv Hle Hs; cbn [fold_left].
  - apply (hull_inv_ext _ _ Pin); [|exact Hinv]. intro q. cbn. tauto.
  - apply StronglySorted_inv in Hs. destruct Hs as [Hs Hf].
    pose proof (pushPoint_inv bot st Pin p Hinv (fun q Hq => Hle q p Hq (or_introl eq_refl)))
      as Hinv'.
    pose proof (IH bot (pushPoint st p) (fun q => Pin q \/ q = p) Hinv') as H.
    apply (hull_inv_ext _ _ (fun q => (Pin q \/ q = p) \/ In q rest)).
    + intro q. cbn. split; [intros [[H1|H1]|H1]|intros [H1|[H1|H1]]]; subst; auto.
    + apply H; [|exact Hs].
      intros q r [Hq| ->] Hr.
      * apply Hle; [exact Hq|right; exact Hr].
      * rewrite List.Forall_forall in Hf. apply Hf, Hr.
Qed.

Lemma chain_inv (s0 : Point) (rest : list Point) :
  StronglySorted lexle (s0 :: rest) ->
  hull_inv s0 (fold_left pushPoint (s0 :: rest) []) (fun q => In q (s0 :: rest)).
Proof.
  intro Hs. cbn [fold_left]. change (pushPoint [] s0) with [s0].
  apply StronglySorted_inv in Hs as Hs'. destruct Hs' as [Hr Hf].
  apply (hull_inv_ext _ _ (fun q => q = s0 \/ In q rest)).
  - intro q. cbn. split; intros [H|H]; auto.
  - apply scan_inv; [|intros q r -> Hr0; rewrite List.Forall_forall in Hf; apply Hf, Hr0|exact Hr].
    split; [discriminate|split; [reflexivity|split; [|split]]].
    + intros c [<-|[]]. reflexivity.
    + intros q ->. split; apply lexle_refl.
    + intros b a [].
Qed.


(** ** The sort *)

Lemma compare_lt (p e : Point) : ltb (compare p e) 0 = true -> lexle p e.
Proof.
  unfold compare, lexle. rewrite ltb_spec.
  destruct (eqb (x p) (x e)) eqn:E; [apply eqb_spec in E|]; intro H.
  - right. split; lra.
  - left. lra.
Qed.

Lemma compare_ge (p e : Point) : ltb (compare p e) 0 = false -> lexle e p.
Proof.
  unfold compare, lexle. rewrite ltb_false.
  destruct (eqb (x p) (x e)) eqn:E; intro H.
  - apply eqb_spec in E. right. split; lra.
  - left. destruct (Qeq_dec (x p) (x e)) as [Heq|Hne].
    + apply eqb_spec in Heq. congruence.
    + apply Qle_lt_or_eq in H. destruct H as [H|H]; [lra|].
      exfalso. apply Hne. lra.
Qed.

Lemma insertSorted_In (p q : Point) (l : list Point) :
  In q (insertSorted p l) <-> q = p \/ In q l.
Proof.
  induction l as [|e r IH]; cbn [insertSorted].
  - cbn. split; intros [H|H]; auto; destruct H.
  - destruct (ltb (compare p e) 0).
    + cbn. split; intros [H|H]; auto.
    + cbn. rewrite IH. split; [intros [H|[H|H]]|intros [H|[H|H]]]; auto.
Qed.

Lemma insertSorted_length (p : Point) (l : list Point) :
  length (insertSorted p l) = S (length l).
Proof.
  induction l as [|e r IH]; [reflexivity|]. cbn [insertSorted].
  destruct (ltb (compare p e) 0); cbn [length]; [reflexivity|rewrite IH; reflexivity].
Qed.

Lemma insertSorted_sorted (p : Point) (l : list Point) :
  Sorted lexle l -> Sorted lexle (insertSorted p l).
Proof.
  induction l as [|e r IH]; intro Hs.
  - repeat constructor.
  - cbn [insertSorted]. destruct (ltb (compare p e) 0) eqn:E.
    + constructor; [exact Hs|]. constructor. apply compare_lt, E.
    + apply Sorted_inv in Hs. destruct Hs as [Hr Hhd].
      constructor; [apply IH, Hr|].
      apply compare_ge in E.
      destruct r as [|f r']; cbn [insertSorted]; [constructor; exact E|].
      destruct (ltb (compare p f) 0); constructor; [exact E|].
      apply HdRel_inv in Hhd. exact Hhd.
Qed.

Lemma sortPoints_spec (points : list Point) :
  StronglySorted lexle (sortPoints points) /\
  (forall q, In q (sortPoints points) <-> In q points) /\
  length (sortPoints points) = length points.
Proof.
  unfold sortPoints.
  assert (G : forall acc, Sorted lexle acc ->
            Sorted lexle (fold_left (fun acc p => insertSorted p acc) points acc) /\
            (forall q, In q (fold_left (fun acc p => insertSorted p acc) points acc) <->
                       In q points \/ In q acc) /\
            length (fold_left (fun acc p => insertSorted p acc) points acc) =
            (length points + length acc)%nat).
  { induction points as [|p r IH]; intros acc Hacc; cbn [fold_left].
    - split; [exact Hacc|split; [intro q; cbn; tauto|reflexivity]].
    - destruct (IH (insertSorted p acc) (insertSorted_sorted p acc Hacc)) as (H1 & H2 & H3).
      split; [exact H1|split].
      + intro q. rewrite H2, insertSorted_In. cbn. split.
        * intros [H|[H|H]]; subst; auto.
        * intros [[H|H]|H]; subst; auto.
      + rewrite H3, insertSorted_length. cbn [length]. lia. }
  destruct (G [] (Sorted_nil _)) as (H1 & H2 & H3).
  split; [apply Sorted_StronglySorted; [exact lexle_trans|exact H1]|split].
  - intro q. rewrite H2. cbn. tauto.
  - rewrite H3. cbn [length]. lia.
Qed.


(** ** The upper chain as the lower chain of the reflected points *)

Lemma neg_neg (p : Point) : neg (neg p) = p.
Proof.
  destruct p as [[xn xd] [yn yd]]. unfold neg, Qopp. cbn.
  rewrite !Z.opp_involutive. reflexivity.
Qed.

Lemma map_neg_neg (l : list Point) : map neg (map neg l) = l.
Proof. rewrite map_map. rewrite <- (map_id l) at 2. apply map_ext, neg_neg. Qed.

Lemma cross_neg (o a b : Point) :
  crossProduct (neg o) (neg a) (neg b) == crossProduct o a b.
Proof. unfold crossProduct, neg. cbn [x y]. ring. Qed.

Lemma lexle_neg (a b : Point) : lexle (neg a) (neg b) <-> lexle b a.
Proof. unfold lexle, neg. cbn [x y]. split; intros [H|[H1 H2]]; lra. Qed.

Lemma leb_compat (a b c : Q) : a == b -> leb a c = leb b c.
Proof.
  intro E. destruct (leb b c) eqn:Hb.
  - apply leb_spec in Hb. apply leb_spec. lra.
  - apply leb_false in Hb. apply leb_false. lra.
Qed.

Lemma popWhile_neg (st : list Point) (p : Point) :
  popWhile (map neg st) (neg p) = map neg (popWhile st p).
Proof.
  induction st as [|a r IH]; [reflexivity|].
  destruct r as [|b r']; [reflexivity|].
  cbn [map]. rewrite !popWhile_cons2.
  rewrite (leb_compat _ _ 0 (cross_neg b a p)).
  destruct (leb (crossProduct b a p) 0); [exact IH|reflexivity].
Qed.

Lemma fold_pushPoint_neg (l st : list Point) :
  fold_left pushPoint (map neg l) (map neg st) = map neg (fold_left pushPoint l st).
Proof.
  revert st. induction l as [|p l IH]; intro st; [reflexivity|].
  cbn [map fold_left]. unfold pushPoint at 2 4.
  rewrite popWhile_neg. change (neg p :: map neg (popWhile st p)) with
    (map neg (p :: popWhile st p)).
  apply IH.
Qed.

Lemma StronglySorted_snoc {A} (R : A -> A -> Prop) (l : list A) (a : A) :
  StronglySorted R l -> (forall c, In c l -> R c a) -> StronglySorted R (l ++ [a]).
Proof.
  induction l as [|b l IH]; intros Hs Ha; cbn [app].
  - repeat constructor.
  - apply StronglySorted_inv in Hs. destruct Hs as [Hs Hf]. constructor.
    + apply IH; [exact Hs|intros c Hc; apply Ha; right; exact Hc].
    + apply List.Forall_app. split; [exact Hf|].
      constructor; [apply Ha; left; reflexivity|constructor].
Qed.

Lemma StronglySorted_rev_neg (l : list Point) :
  StronglySorted lexle l -> StronglySorted lexle (map neg (rev l)).
Proof.
  induction l as [|a l IH]; intro Hs; [constructor|].
  apply StronglySorted_inv in Hs. destruct Hs as [Hs Hf].
  cbn [rev]. rewrite map_app. cbn [map].
  apply StronglySorted_snoc; [apply IH, Hs|].
  intros c Hc. apply in_map_iff in Hc. destruct Hc as [d [<- Hd]].
  apply lexle_neg. rewrite <- in_rev in Hd. rewrite List.Forall_forall in Hf. apply Hf, Hd.
Qed.

Lemma st_edges_neg (st : list Point) (b a : Point) :
  In (b, a) (st_edges (map neg st)) -> In (neg b, neg a) (st_edges st).
Proof.
  induction st as [|c r IH]; intro H; [destruct H|].
  destruct r as [|d r']; [destruct H|].
  destruct H as [H|H].
  - injection H as <- <-. rewrite !neg_neg. left. reflexivity.
  - right. apply IH, H.
Qed.

(** ** The vertex cycle of the result *)

Lemma combine_path (a : Point) (r : list Point) (z : Point) :
  combine (a :: r) (r ++ [z]) = path_pairs (a :: r ++ [z]).
Proof.
  revert a. induction r as [|b r IH]; intro a; [reflexivity|].
  change (combine (a :: b :: r) ((b :: r) ++ [z])) with
    ((a, b) :: combine (b :: r) (r ++ [z])).
  rewrite IH. reflexivity.
Qed.

Lemma path_pairs_split (l1 l2 : list Point) (z : Point) :
  path_pairs (l1 ++ z :: l2) = path_pairs (l1 ++ [z]) ++ path_pairs (z :: l2).
Proof.
  induction l1 as [|a l1 IH]; [reflexivity|].
  destruct l1 as [|b l1']; [reflexivity|].
  change (path_pairs ((a :: b :: l1') ++ z :: l2)) with
    ((a, b) :: path_pairs ((b :: l1') ++ z :: l2)).
  rewrite IH. reflexivity.
Qed.

Lemma path_pairs_snoc (l : list Point) (a z : Point) :
  path_pairs ((a :: l) ++ [z]) = path_pairs (a :: l) ++ [(List.last (a :: l) a, z)].
Proof.
  revert a. induction l as [|b l IH]; intro a; [reflexivity|].
  change (path_pairs ((a :: b :: l) ++ [z])) with ((a, b) :: path_pairs ((b :: l) ++ [z])).
  rewrite IH. change (List.last (a :: b :: l) a) with (List.last (b :: l) a).
  rewrite (last_cons_irrel_Q b l a b). reflexivity.
Qed.


Lemma path_pairs_rev (st : list Point) (e : Point * Point) :
  In e (path_pairs (rev st)) -> In e (st_edges st).
Proof.
  induction st as [|a r IH]; intro H; [destruct H|].
  destruct r as [|b r']; [cbn in H; destruct H|].
  change (rev (a :: b :: r')) with (rev (b :: r') ++ [a]) in H.
  destruct (rev (b :: r')) as [|c r''] eqn:Er.
  - apply (f_equal (@length Point)) in Er. rewrite length_rev in Er. discriminate.
  - rewrite path_pairs_snoc in H. apply in_app_or in H.
    destruct H as [H|[H|[]]].
    + right. apply IH. exact H.
    + assert (Hl : List.last (c :: r'') c = b).
      { rewrite <- Er. cbn [rev]. apply List.last_last. }
      rewrite Hl in H. subst e. left. reflexivity.
Qed.

Lemma fold_pushPoint_nonempty (l st : list Point) :
  st <> [] -> fold_left pushPoint l st <> [].
Proof.
  revert st. induction l as [|p l IH]; intros st H; [exact H|].
  cbn [fold_left]. apply IH. discriminate.
Qed.

Lemma last_map_neg (l : list Point) (d : Point) :
  List.last (map neg l) (neg d) = neg (List.last l d).
Proof.
  induction l as [|a l IH]; [reflexivity|].
  destruct l as [|b l']; [reflexivity|].
  change (List.last (map neg (b :: l')) (neg d) = neg (List.last (b :: l') d)). exact IH.
Qed.

Lemma last_cons_ne (a : Point) (l : list Point) (d : Point) :
  l <> [] -> List.last (a :: l) d = List.last l d.
Proof. destruct l; [congruence|reflexivity]. Qed.

(** The two chains: the lower one ends with the greatest point [z] on top of
    the least point [s0], the upper one the other way round. *)
Lemma chains_shape (s0 z : Point) (mid : list Point) :
  StronglySorted lexle (s0 :: mid ++ [z]) ->
  let s := s0 :: mid ++ [z] in
  exists R1 R2,
    fold_left pushPoint s [] = z :: R1 ++ [s0] /\
    fold_left pushPoint (rev s) [] = s0 :: R2 ++ [z] /\
    hull_inv s0 (fold_left pushPoint s []) (fun q => In q s) /\
    hull_inv (neg z) (fold_left pushPoint (map neg (rev s)) []) (fun q => In q (map neg (rev s))) /\
    fold_left pushPoint (rev s) [] = map neg (fold_left pushPoint (map neg (rev s)) []).
Proof.
  intros Hs s.
  pose proof (chain_inv s0 (mid ++ [z]) Hs) as HL. fold s in HL.
  assert (Hsn : StronglySorted lexle (map neg (rev s))) by (apply StronglySorted_rev_neg, Hs).
  assert (Ers : map neg (rev s) = neg z :: map neg (rev mid ++ [s0])).
  { unfold s. cbn [rev]. rewrite rev_app_distr. reflexivity. }
  pose proof (chain_inv (neg z) (map neg (rev mid ++ [s0]))) as HN.
  rewrite <- Ers in HN. specialize (HN Hsn).
  assert (EU : fold_left pushPoint (rev s) [] =
               map neg (fold_left pushPoint (map neg (rev s)) [])).
  { rewrite <- fold_pushPoint_neg. rewrite map_neg_neg. reflexivity. }
  (* the lower chain *)
  assert (EL : fold_left pushPoint s [] =
               z :: popWhile (fold_left pushPoint (s0 :: mid) []) z).
  { unfold s. rewrite app_comm_cons, fold_left_app. reflexivity. }
  set (L' := popWhile (fold_left pushPoint (s0 :: mid) []) z) in EL.
  assert (HL' : L' <> []).
  { apply popWhile_nonempty. exact (fold_pushPoint_nonempty mid (pushPoint [] s0) ltac:(discriminate)). }
  assert (HlastL : List.last L' s0 = s0).
  { destruct HL as (_ & H & _). rewrite EL, last_cons_ne in H by exact HL'. exact H. }
  (* the upper chain *)
  assert (EN : fold_left pushPoint (map neg (rev s)) [] =
               neg s0 :: popWhile (fold_left pushPoint (neg z :: map neg (rev mid)) []) (neg s0)).
  { rewrite Ers, map_app, app_comm_cons, fold_left_app. reflexivity. }
  set (N' := popWhile (fold_left pushPoint (neg z :: map neg (rev mid)) []) (neg s0)) in EN.
  assert (HN' : N' <> []).
  { apply popWhile_nonempty.
    exact (fold_pushPoint_nonempty (map neg (rev mid)) (pushPoint [] (neg z)) ltac:(discriminate)). }
  assert (HlastN : List.last N' (neg z) = neg z).
  { destruct HN as (_ & H & _). rewrite EN, last_cons_ne in H by exact HN'. exact H. }
  assert (HlastU : List.last (map neg N') z = z).
  { rewrite <- (neg_neg z) at 1. rewrite last_map_neg, HlastN. apply neg_neg. }
  exists (removelast L'), (removelast (map neg N')).
  split; [|split; [|split; [exact HL|split; [exact HN|exact EU]]]].
  - rewrite EL. f_equal.
    transitivity (removelast L' ++ [List.last L' s0]);
      [apply app_removelast_last, HL'|rewrite HlastL; reflexivity].
  - rewrite EU, EN. cbn [map]. rewrite neg_neg. f_equal.
    transitivity (removelast (map neg N') ++ [List.last (map neg N') z]);
      [|rewrite HlastU; reflexivity].
    apply app_removelast_last. intro H. apply map_eq_nil in H. exact (HN' H).
Qed.


Lemma insertSorted_perm (p : Point) (l : list Point) :
  Permutation (insertSorted p l) (p :: l).
Proof.
  induction l as [|e r IH]; [reflexivity|]. cbn [insertSorted].
  destruct (ltb (compare p e) 0); [reflexivity|].
  transitivity (e :: p :: r); [apply perm_skip, IH|apply perm_swap].
Qed.

Lemma sortPoints_perm (points : list Point) : Permutation (sortPoints points) points.
Proof.
  unfold sortPoints.
  assert (G : forall acc, Permutation (fold_left (fun acc p => insertSorted p acc) points acc)
                                      (rev acc ++ points)).
  { induction points as [|p r IH]; intro acc; cbn [fold_left].
    - rewrite app_nil_r. apply Permutation_rev.
    - rewrite IH. rewrite insertSorted_perm. cbn [rev]. rewrite <- app_assoc. reflexivity. }
  rewrite G. reflexivity.
Qed.

(** Claim C3. Below three points [convexHull] returns its input; otherwise it
    sorts the points into a lexicographically sorted permutation, every vertex
    of the result is an input point, and every input point lies weakly to the
    left of every directed edge of the vertex cycle (the vertices run
    counter-clockwise around all the points). On the four corners of the unit
    square and its center it returns the corners counter-clockwise from (0,0). *)
Theorem Polygon_convexHull_C3 :
  (forall points : list Point, (length points < 3)%nat -> convexHull points = points) /\
  (forall points : list Point,
     Permutation (sortPoints points) points /\ StronglySorted lexle (sortPoints points)) /\
  (forall points : list Point, (3 <= length points)%nat ->
     (forall h, In h (convexHull points) -> In h points) /\
     (forall u v q, In (u, v) (cycle_pairs (convexHull points)) -> In q points ->
                    0 <= crossProduct u v q)) /\
  convexHull [mkPoint 0 0; mkPoint 1 1; mkPoint 0 1; mkPoint 1 0; mkPoint (1#2) (1#2)] =
  [mkPoint 0 0; mkPoint 1 0; mkPoint 1 1; mkPoint 0 1].
Proof.
  split; [|split; [|split]].
  - intros points H. unfold convexHull.
    replace (length points <? 3)%nat with true by (symmetry; apply Nat.ltb_lt; exact H).
    reflexivity.
  - intro points. split; [apply sortPoints_perm|apply sortPoints_spec].
  - intros points Hlen.
    unfold convexHull.
    replace (length points <? 3)%nat with false by (symmetry; apply Nat.ltb_ge; exact Hlen).
    cbv zeta.
    destruct (sortPoints_spec points) as (Hs & Hin & Hl).
    remember (sortPoints points) as s eqn:Es. clear Es.
    destruct s as [|s0 rest]; [cbn in Hl; lia|].
    destruct (exists_last (l := rest)) as (mid & z & ->).
    { intros ->. cbn in Hl. lia. }
    destruct (chains_shape s0 z mid Hs) as (R1 & R2 & EL & EU & HL & HN & EUN).
    set (s := s0 :: mid ++ [z]) in *.
    destruct HL as (_ & _ & HLmem & _ & HLedges).
    destruct HN as (_ & _ & HNmem & _ & HNedges).
    assert (HU : forall c, In c (fold_left pushPoint (rev s) []) -> In c s).
    { intros c Hc. rewrite EUN in Hc. apply in_map_iff in Hc. destruct Hc as [d [<- Hd]].
      apply HNmem in Hd. apply in_map_iff in Hd. destruct Hd as [e [<- He]].
      rewrite neg_neg. apply in_rev, He. }
    assert (HUedges : forall u v, In (u, v) (st_edges (fold_left pushPoint (rev s) [])) ->
                      forall q, In q s -> 0 <= crossProduct u v q).
    { intros u v Huv q Hq. rewrite EUN in Huv. apply st_edges_neg in Huv.
      destruct (HNedges _ _ Huv) as [_ Hr].
      assert (Hq' : In (neg q) (map neg (rev s))) by (apply in_map, in_rev; rewrite rev_involutive; exact Hq).
      pose proof (Hr _ Hq') as H. rewrite cross_neg in H. exact H. }
    rewrite EL, EU in *. cbn [tl]. rewrite !rev_app_distr. cbn [rev app].
    split.
    + intros h Hh. apply Hin. destruct Hh as [Hh|Hh].
      * subst h. apply HLmem. right. apply in_or_app. right. left. reflexivity.
      * apply in_app_or in Hh. destruct Hh as [Hh|[Hh|Hh]].
        -- apply HLmem. right. apply in_or_app. left. apply in_rev, Hh.
        -- subst h. apply HU. right. apply in_or_app. right. left. reflexivity.
        -- apply HU. right. apply in_or_app. left. apply in_rev, Hh.
    + intros u v q Huv Hq. apply Hin in Hq.
      assert (Ec : cycle_pairs (s0 :: (rev R1 ++ z :: rev R2)) =
                   path_pairs (s0 :: (rev R1 ++ z :: rev R2) ++ [s0]))
        by exact (combine_path s0 (rev R1 ++ z :: rev R2) s0).
      change (s0 :: rev R1 ++ z :: rev R2) with (s0 :: (rev R1 ++ z :: rev R2)) in Huv.
      rewrite Ec in Huv.
      replace (s0 :: (rev R1 ++ z :: rev R2) ++ [s0]) with
        ((s0 :: rev R1) ++ z :: (rev R2 ++ [s0])) in Huv
        by (cbn [app]; rewrite <- app_assoc; reflexivity).
      rewrite path_pairs_split in Huv. apply in_app_or in Huv.
      destruct Huv as [Huv|Huv].
      * replace ((s0 :: rev R1) ++ [z]) with (rev (z :: R1 ++ [s0])) in Huv
          by (cbn [rev]; rewrite rev_app_distr; reflexivity).
        apply path_pairs_rev in Huv. exact (proj2 (HLedges u v Huv) q Hq).
      * replace (z :: rev R2 ++ [s0]) with (rev (s0 :: R2 ++ [z])) in Huv
          by (cbn [rev]; rewrite rev_app_distr; reflexivity).
        apply path_pairs_rev in Huv. exact (HUedges u v Huv q Hq).
  - exact example_hull.
Qed.

End HullProofs.

Module HullOps.
Import Poly Hull HullProofs.

(** The vertices of the hull of at least three points are input points, and
    every input point lies weakly left of every directed edge of the vertex
    cycle. *)
Lemma hull_left (points : list Point) : (3 <= length points)%nat ->
  (forall h, In h (convexHull points) -> In h points) /\
  (forall u v q, In (u, v) (cycle_pairs (convexHull points)) -> In q points ->
                 0 <= crossProduct u v q).
Proof.
  intro Hlen.
  unfold convexHull.
  replace (length points <? 3)%nat with false by (symmetry; apply Nat.ltb_ge; exact Hlen).
  cbv zeta.
  destruct (sortPoints_spec points) as (Hs & Hin & Hl).
  remember (sortPoints points) as s eqn:Es. clear Es.
  destruct s as [|s0 rest]; [cbn in Hl; lia|].
  destruct (exists_last (l := rest)) as (mid & z & ->).
  { intros ->. cbn in Hl. lia. }
  destruct (chains_shape s0 z mid Hs) as (R1 & R2 & EL & EU & HL & HN & EUN).
  set (s := s0 :: mid ++ [z]) in *.
  destruct HL as (_ & _ & HLmem & _ & HLedges).
  destruct HN as (_ & _ & HNmem & _ & HNedges).
  assert (HU : forall c, In c (fold_left pushPoint (rev s) []) -> In c s).
  { intros c Hc. rewrite EUN in Hc. apply in_map_iff in Hc. destruct Hc as [d [<- Hd]].
    apply HNmem in Hd. apply in_map_iff in Hd. destruct Hd as [e [<- He]].
    rewrite neg_neg. apply in_rev, He. }
  assert (HUedges : forall u v, In (u, v) (st_edges (fold_left pushPoint (rev s) [])) ->
                    forall q, In q s -> 0 <= crossProduct u v q).
  { intros u v Huv q Hq. rewrite EUN in Huv. apply st_edges_neg in Huv.
    destruct (HNedges _ _ Huv) as [_ Hr].
    assert (Hq' : In (neg q) (map neg (rev s))) by (apply in_map, in_rev; rewrite rev_involutive; exact Hq).
    pose proof (Hr _ Hq') as H. rewrite cross_neg in H. exact H. }
  rewrite EL, EU in *. cbn [tl]. rewrite !rev_app_distr. cbn [rev app].
  split.
  + intros h Hh. apply Hin. destruct Hh as [Hh|Hh].
    * subst h. apply HLmem. right. apply in_or_app. right. left. reflexivity.
    * apply in_app_or in Hh. destruct Hh as [Hh|[Hh|Hh]].
      -- apply HLmem. right. apply in_or_app. left. apply in_rev, Hh.
      -- subst h. apply HU. right. apply in_or_app. right. left. reflexivity.
      -- apply HU. right. apply in_or_app. left. apply in_rev, Hh.
  + intros u v q Huv Hq. apply Hin in Hq.
    assert (Ec : cycle_pairs (s0 :: (rev R1 ++ z :: rev R2)) =
                 path_pairs (s0 :: (rev R1 ++ z :: rev R2) ++ [s0]))
      by exact (combine_path s0 (rev R1 ++ z :: rev R2) s0).
    change (s0 :: rev R1 ++ z :: rev R2) with (s0 :: (rev R1 ++ z :: rev R2)) in Huv.
    rewrite Ec in Huv.
    replace (s0 :: (rev R1 ++ z :: rev R2) ++ [s0]) with
      ((s0 :: rev R1) ++ z :: (rev R2 ++ [s0])) in Huv
      by (cbn [app]; rewrite <- app_assoc; reflexivity).
    rewrite path_pairs_split in Huv. apply in_app_or in Huv.
    destruct Huv as [Huv|Huv].
    * replace ((s0 :: rev R1) ++ [z]) with (rev (z :: R1 ++ [s0])) in Huv
        by (cbn [rev]; rewrite rev_app_distr; reflexivity).
      apply path_pairs_rev in Huv. exact (proj2 (HLedges u v Huv) q Hq).
    * replace (z :: rev R2 ++ [s0]) with (rev (s0 :: R2 ++ [z])) in Huv
        by (cbn [rev]; rewrite rev_app_distr; reflexivity).
      apply path_pairs_rev in Huv. exact (HUedges u v Huv q Hq).
Qed.

Lemma rotl_nth (vs : list Point) (i : nat) :
  (i < length vs)%nat -> nth i (rotl vs) Point_zero = vtx vs ((i + 1) mod length vs)%nat.
Proof.
  destruct vs as [|v r]; cbn [length]; [lia|]. intro Hi. unfold rotl, vtx.
  destruct (Nat.eq_dec (i + 1)%nat (S (length r))) as [E|E].
  - replace ((i + 1) mod S (length r))%nat with 0%nat
      by (rewrite E; symmetry; apply Nat.Div0.mod_same).
    replace i with (length r) by lia. rewrite nth_middle. reflexivity.
  - rewrite Nat.mod_small by lia. rewrite app_nth1 by lia.
    replace (i + 1)%nat with (S i) by lia. reflexivity.
Qed.

Lemma cycle_pairs_nth (vs : list Point) (i : nat) :
  (i < length vs)%nat ->
  In (vtx vs i, vtx vs ((i + 1) mod length vs)%nat) (cycle_pairs vs).
Proof.
  intro Hi. unfold cycle_pairs.
  assert (Hl : length vs = length (rotl vs)).
  { destruct vs as [|v r]; [reflexivity|]. cbn. rewrite length_app. cbn. lia. }
  rewrite <- (rotl_nth vs i Hi). unfold vtx.
  rewrite <- combine_nth by exact Hl.
  apply nth_In. rewrite length_combine, <- Hl. lia.
Qed.

Lemma isConvex_loop_nonneg (vs : list Point) (n : nat) (idx : list nat) (sign : Z) :
  (sign = 0 \/ sign = 1)%Z ->
  (forall i, In i idx ->
     let p1 := vtx vs i in let p2 := vtx vs ((i + 1) mod n)%nat in let p3 := vtx vs ((i + 2) mod n)%nat in
     0 <= (x p2 - x p1) * (y p3 - y p2) - (y p2 - y p1) * (x p3 - x p2)) ->
  isConvex_loop vs n idx sign = true.
Proof.
  revert sign. induction idx as [|i rest IH]; intros sign Hs Hall; [reflexivity|].
  cbn [isConvex_loop]. cbv zeta.
  assert (Hrest : forall j, In j rest ->
     let p1 := vtx vs j in let p2 := vtx vs ((j + 1) mod n)%nat in let p3 := vtx vs ((j + 2) mod n)%nat in
     0 <= (x p2 - x p1) * (y p3 - y p2) - (y p2 - y p1) * (x p3 - x p2))
    by (intros j Hj; apply Hall; right; exact Hj).
  pose proof (Hall i (or_introl eq_refl)) as Hi. cbv zeta in Hi.
  destruct (ltb eps (Qabs _)) eqn:E.
  - apply ltb_spec in E.
    rewrite Qabs_pos in E by exact Hi.
    assert (Hp : ltb 0 ((x (vtx vs ((i + 1) mod n)%nat) - x (vtx vs i)) *
                        (y (vtx vs ((i + 2) mod n)%nat) - y (vtx vs ((i + 1) mod n)%nat)) -
                        (y (vtx vs ((i + 1) mod n)%nat) - y (vtx vs i)) *
                        (x (vtx vs ((i + 2) mod n)%nat) - x (vtx vs ((i + 1) mod n)%nat))) = true)
      by (apply ltb_spec; unfold eps in E; lra).
    rewrite Hp.
    destruct Hs as [-> | ->]; cbn [Z.eqb negb]; apply IH; auto.
  - apply IH; assumption.
Qed.

(** The polygon returned by [convexHull] for at least three points passes
    [isConvex()] whenever it has at least three vertices: no turn of its
    vertex cycle is clockwise. *)
Theorem Polygon_convexHull_isConvex (points : list Point) :
  (3 <= length points)%nat -> (3 <= length (convexHull points))%nat ->
  isConvex (convexHull points) = true.
Proof.
  intros Hp Hh. destruct (hull_left points Hp) as [Hin Hleft].
  set (hull := convexHull points) in *.
  unfold isConvex. rewrite (proj2 (Nat.ltb_ge _ _) Hh). cbv zeta.
  apply isConvex_loop_nonneg; [left; reflexivity|].
  intros i Hi. apply in_seq in Hi.
  assert (Hi' : (i < length hull)%nat) by (destruct (isClosed hull); lia).
  cbv zeta.
  set (n := length hull) in *.
  assert (Hn : (0 < n)%nat) by lia.
  set (p1 := vtx hull i). set (p2 := vtx hull ((i + 1) mod n)%nat). set (p3 := vtx hull ((i + 2) mod n)%nat).
  assert (Hpair : In (p1, p2) (cycle_pairs hull)) by (apply cycle_pairs_nth; exact Hi').
  assert (Hq : In p3 points).
  { apply Hin. unfold p3, vtx. apply nth_In. apply Nat.mod_upper_bound. lia. }
  pose proof (Hleft p1 p2 p3 Hpair Hq) as H.
  unfold crossProduct in H. nra.
Qed.

Lemma Polygon_convexHull_isConvex_witness :
  (3 <= length [mkPoint 0 0; mkPoint 1 1; mkPoint 0 1; mkPoint 1 0; mkPoint (1#2) (1#2)])%nat /\
  (3 <= length (convexHull [mkPoint 0 0; mkPoint 1 1; mkPoint 0 1; mkPoint 1 0;
                            mkPoint (1#2) (1#2)]))%nat /\
  isConvex (convexHull [mkPoint 0 0; mkPoint 1 1; mkPoint 0 1; mkPoint 1 0;
                        mkPoint (1#2) (1#2)]) = true.
Proof.
  assert (H1 : (3 <= length [mkPoint 0 0; mkPoint 1 1; mkPoint 0 1; mkPoint 1 0;
                             mkPoint (1#2) (1#2)])%nat) by (cbn; lia).
  assert (H2 : (3 <= length (convexHull [mkPoint 0 0; mkPoint 1 1; mkPoint 0 1; mkPoint 1 0;
                                         mkPoint (1#2) (1#2)]))%nat)
    by (vm_compute; lia).
  split; [exact H1|split; [exact H2|]].
  exact (Polygon_convexHull_isConvex _ H1 H2).
Defined.

End HullOps.

(** ** Point, Line, Circle and Polygon over the reals *)

Module RealOps.
Import RealGeom RealProofs.
Local Open Scope R_scope.

Lemma leb_true_R (a b : R) : leb a b = true <-> a <= b.
Proof. unfold leb. destruct (Rle_dec a b); split; intro H; auto; try discriminate; contradiction. Qed.

Lemma eqb_true_R (a b : R) : eqb a b = true <-> a = b.
Proof. unfold eqb. destruct (Req_EM_T a b); split; intro H; auto; try discriminate; contradiction. Qed.

Lemma sum_sq_nonneg (a b : R) : 0 <= a * a + b * b.
Proof. nra. Qed.

Lemma sqrt_le_iff (a r : R) : 0 <= a -> 0 <= r -> (sqrt a <= r <-> a <= r * r).
Proof.
  intros Ha Hr. split; intro H.
  - pose proof (sqrt_pos a). pose proof (sqrt_sqrt a Ha). nra.
  - rewrite <- (sqrt_square r Hr). apply sqrt_le_1_alt. exact H.
Qed.

Lemma distance_nonneg (p q : Point) : 0 <= distance p q.
Proof. apply sqrt_pos. Qed.

Lemma distance_sq (p q : Point) :
  distance p q * distance p q = (x q - x p) * (x q - x p) + (y q - y p) * (y q - y p).
Proof. unfold distance; cbv zeta. apply sqrt_sqrt, sum_sq_nonneg. Qed.

Lemma distance_sym (p q : Point) : distance p q = distance q p.
Proof. unfold distance; cbv zeta. f_equal. ring. Qed.

Lemma distance_self (p : Point) : distance p p = 0.
Proof. unfold distance; cbv zeta. replace (_ + _) with 0 by ring. apply sqrt_0. Qed.

Lemma distance_lerp (p q : Point) (t : R) :
  distance p (lerp p q t) = Rabs t * distance p q.
Proof.
  unfold distance, lerp; cbv zeta; cbn [x y].
  replace ((x p + (x q - x p) * t - x p) * (x p + (x q - x p) * t - x p) +
           (y p + (y q - y p) * t - y p) * (y p + (y q - y p) * t - y p))
    with (Rsqr t * ((x q - x p) * (x q - x p) + (y q - y p) * (y q - y p)))
    by (unfold Rsqr; ring).
  rewrite sqrt_mult_alt by apply Rle_0_sqr. rewrite sqrt_Rsqr_abs. reflexivity.
Qed.

Lemma distance_le_sq (p q r s : Point) :
  (x q - x p) * (x q - x p) + (y q - y p) * (y q - y p) <=
  (x s - x r) * (x s - x r) + (y s - y r) * (y s - y r) ->
  distance p q <= distance r s.
Proof. intro H. unfold distance; cbv zeta. apply sqrt_le_1_alt. exact H. Qed.

Lemma distance_triangle (a b c : Point) : distance a c <= distance a b + distance b c.
Proof.
  pose proof (distance_sq a b) as Hab. pose proof (distance_sq b c) as Hbc.
  pose proof (distance_sq a c) as Hac.
  pose proof (distance_nonneg a b). pose proof (distance_nonneg b c). pose proof (distance_nonneg a c).
  set (ux := x b - x a) in *. set (uy := y b - y a) in *.
  set (vx := x c - x b) in *. set (vy := y c - y b) in *.
  assert (Ecs : (ux * vx + uy * vy) * (ux * vx + uy * vy) +
                (ux * vy - uy * vx) * (ux * vy - uy * vx) =
                (distance a b * distance a b) * (distance b c * distance b c))
    by (rewrite Hab, Hbc; ring).
  assert (Hcs : ux * vx + uy * vy <= distance a b * distance b c).
  { pose proof (Rle_0_sqr (ux * vy - uy * vx)) as Ht. unfold Rsqr in Ht.
    assert (Hp : 0 <= distance a b * distance b c) by (apply Rmult_le_pos; assumption).
    destruct (Rle_lt_dec (ux * vx + uy * vy) (distance a b * distance b c)) as [Hle|Hlt];
      [exact Hle|].
    exfalso. nra. }
  assert (Hsq : distance a c * distance a c <=
                (distance a b + distance b c) * (distance a b + distance b c)).
  { rewrite Hac. replace (x c - x a) with (ux + vx) by (unfold ux, vx; ring).
    replace (y c - y a) with (uy + vy) by (unfold uy, vy; ring). nra. }
  nra.
Qed.


Lemma Point_length_sq (p : Point) : Point_length p * Point_length p = x p * x p + y p * y p.
Proof. unfold Point_length. apply sqrt_sqrt, sum_sq_nonneg. Qed.

(** [point.normalize()] never throws: a point of length 0 is returned
    unchanged, and any other point becomes a point of length 1 pointing the
    same way (its coordinates times the old length give the old ones). *)
Theorem Point_normalize_unit (p : Point) :
  Point_normalize p <> None /\
  (Point_length p = 0 -> Point_normalize p = Some p) /\
  (Point_length p <> 0 -> exists n, Point_normalize p = Some n /\ Point_length n = 1 /\
     x n * Point_length p = x p /\ y n * Point_length p = y p).
Proof.
  unfold Point_normalize, Point_divide. cbv zeta.
  destruct (eqb (Point_length p) 0) eqn:E.
  - apply eqb_true_R in E. split; [discriminate|split; [reflexivity|contradiction]].
  - assert (HL : Point_length p <> 0) by (intro H; apply eqb_true_R in H; congruence).
    split; [discriminate|split; [intro; contradiction|intros _]].
    eexists; split; [reflexivity|]. cbn [x y]. split; [|split; field; exact HL].
    unfold Point_length at 1. cbn [x y].
    replace (x p / Point_length p * (x p / Point_length p) + y p / Point_length p * (y p / Point_length p))
      with ((x p * x p + y p * y p) / (Point_length p * Point_length p)) by (field; exact HL).
    rewrite <- Point_length_sq. unfold Rdiv. rewrite Rinv_r by (apply Rmult_integral_contrapositive; tauto).
    apply sqrt_1.
Qed.

(** [point.rotate(angle)] keeps the length of the point, and rotating by [a]
    then by [b] is rotating by [a + b]. *)
Theorem Point_rotate_spec (p : Point) (a b : R) :
  Point_length (Point_rotate p a) = Point_length p /\
  Point_rotate (Point_rotate p a) b = Point_rotate p (a + b).
Proof.
  split.
  - unfold Point_length, Point_rotate. cbv zeta. cbn [x y]. f_equal.
    pose proof (sin2_cos2 a) as H. unfold Rsqr in H.
    replace ((x p * cos a - y p * sin a) * (x p * cos a - y p * sin a) +
             (x p * sin a + y p * cos a) * (x p * sin a + y p * cos a))
      with ((x p * x p + y p * y p) * (sin a * sin a + cos a * cos a)) by ring.
    rewrite H. ring.
  - unfold Point_rotate. cbv zeta. cbn [x y]. rewrite cos_plus, sin_plus. f_equal; ring.
Qed.


Lemma distanceToPoint_min (l : Line) (P : Point) :
  (forall t, 0 <= t <= 1 -> Line_distanceToPoint l P <= distanceTo P (Line_pointAt l t)) /\
  (exists t, 0 <= t <= 1 /\ Line_distanceToPoint l P = distanceTo P (Line_pointAt l t)).
Proof.
  unfold Line_distanceToPoint. cbv zeta.
  set (A := start l) in *. set (B := end_ l) in *.
  set (dx := x B - x A). set (dy := y B - y A). set (wx := x P - x A). set (wy := y P - y A).
  assert (Hf : forall t, distanceTo P (Line_pointAt l t) =
             sqrt ((wx - t * dx) * (wx - t * dx) + (wy - t * dy) * (wy - t * dy))).
  { intro t. unfold distanceTo, distance, Line_pointAt, lerp; cbv zeta; cbn [x y]. f_equal.
    fold A B. unfold wx, wy, dx, dy. ring. }
  assert (Hl2 : distanceTo A B ^ 2 = dx * dx + dy * dy).
  { unfold distanceTo. replace (distance A B ^ 2) with (distance A B * distance A B) by ring.
    rewrite distance_sq. reflexivity. }
  rewrite Hl2.
  destruct (eqb (dx * dx + dy * dy) 0) eqn:E.
  - apply eqb_true_R in E.
    pose proof (Rle_0_sqr dx). pose proof (Rle_0_sqr dy). unfold Rsqr in *.
    assert (Hdx : dx = 0) by nra. assert (Hdy : dy = 0) by nra.
    assert (Hc : forall t, distanceTo P (Line_pointAt l t) = distanceTo P A).
    { intro t. rewrite Hf. unfold distanceTo, distance. cbv zeta. f_equal.
      rewrite Hdx, Hdy. unfold wx, wy. ring. }
    split.
    + intros t _. rewrite Hc. lra.
    + exists 0. split; [lra|]. rewrite Hc. reflexivity.
  - assert (HD : 0 < dx * dx + dy * dy).
    { pose proof (sum_sq_nonneg dx dy).
      destruct (Req_EM_T (dx * dx + dy * dy) 0) as [Z|Z];
        [apply eqb_true_R in Z; congruence|lra]. }
    set (D := dx * dx + dy * dy) in *.
    replace ((x P - x A) * (x B - x A) + (y P - y A) * (y B - y A)) with (wx * dx + wy * dy)
      by reflexivity.
    set (ts := (wx * dx + wy * dy) / D).
    set (tc := Rmax 0 (Rmin 1 ts)).
    assert (Hq : forall t, (wx - t * dx) * (wx - t * dx) + (wy - t * dy) * (wy - t * dy) =
                           (wx * wx + wy * wy) - ts * ts * D + D * ((t - ts) * (t - ts))).
    { intro t. unfold ts, D. field. unfold D in HD. lra. }
    assert (Htc : 0 <= tc <= 1) by (unfold tc, Rmax, Rmin; repeat destruct Rle_dec; lra).
    assert (Hclose : forall t, 0 <= t <= 1 -> (tc - ts) * (tc - ts) <= (t - ts) * (t - ts)).
    { assert (Hcases : (ts <= 0 /\ tc = 0) \/ (1 <= ts /\ tc = 1) \/ (0 <= ts <= 1 /\ tc = ts)).
      { unfold tc, Rmax, Rmin; repeat destruct Rle_dec; lra. }
      intros t Ht.
      assert (Hid : (t - ts) * (t - ts) - (tc - ts) * (tc - ts) = (t - tc) * (t + tc - 2 * ts))
        by ring.
      assert (0 <= (t - tc) * (t + tc - 2 * ts)).
      { destruct Hcases as [[H1 ->]|[[H1 ->]|[H1 ->]]].
        - apply Rmult_le_pos; lra.
        - replace ((t - 1) * (t + 1 - 2 * ts)) with ((1 - t) * (2 * ts - t - 1)) by ring.
          apply Rmult_le_pos; lra.
        - replace ((t - ts) * (t + ts - 2 * ts)) with ((t - ts) * (t - ts)) by ring.
          apply Rle_0_sqr. }
      lra. }
    split.
    + intros t Ht. rewrite !Hf. apply sqrt_le_1_alt. rewrite !Hq.
      specialize (Hclose t Ht).
      apply Rplus_le_compat_l, Rmult_le_compat_l; [lra|exact Hclose].
    + exists tc. split; [exact Htc|reflexivity].
Qed.


(** [line.distanceToPoint(point)] is the least distance from [point] to a
    point [pointAt(t)], [0 <= t <= 1], of the segment, and that least distance
    is reached. *)
Theorem Line_distanceToPoint_min (l : Line) (P : Point) :
  (forall t, 0 <= t <= 1 -> Line_distanceToPoint l P <= distanceTo P (Line_pointAt l t)) /\
  (exists t, 0 <= t <= 1 /\ Line_distanceToPoint l P = distanceTo P (Line_pointAt l t)).
Proof. exact (distanceToPoint_min l P). Qed.

(** [line.containsPoint(point, tolerance)] holds exactly when some point of
    the segment lies within [tolerance] of [point]. *)
Theorem Line_containsPoint_spec (l : Line) (P : Point) (tolerance : R) :
  Line_containsPoint l P tolerance = true <->
  exists t, 0 <= t <= 1 /\ distanceTo P (Line_pointAt l t) <= tolerance.
Proof.
  unfold Line_containsPoint. rewrite leb_true_R.
  destruct (distanceToPoint_min l P) as [Hmin [t [Ht Heq]]]. split.
  - intro H. exists t. split; [exact Ht|]. rewrite <- Heq. exact H.
  - intros [t' [Ht' Hd]]. specialize (Hmin t' Ht'). lra.
Qed.

Lemma length_zero (p : Point) : Point_length p = 0 -> x p = 0 /\ y p = 0.
Proof.
  unfold Point_length. intro H. apply sqrt_eq_0 in H; [|apply sum_sq_nonneg].
  pose proof (Rle_0_sqr (x p)). pose proof (Rle_0_sqr (y p)). unfold Rsqr in *.
  split; nra.
Qed.

(** [Line.fromPointAndDirection(point, direction, length)] never throws and
    starts at [point]; its length is [|length|] for a non-zero direction and 0
    for the zero direction. *)
Theorem Line_fromPointAndDirection_length (point direction : Point) (length : R) :
  exists l, fromPointAndDirection point direction length = Some l /\ start l = point /\
    (Point_length direction = 0 -> Line_length l = 0) /\
    (Point_length direction <> 0 -> Line_length l = Rabs length).
Proof.
  unfold fromPointAndDirection, Point_normalize, Point_divide. cbv zeta.
  destruct (eqb (Point_length direction) 0) eqn:E.
  - apply eqb_true_R in E. destruct (length_zero direction E) as [Hx Hy].
    eexists; split; [reflexivity|split; [reflexivity|split; [intros _|intro; contradiction]]].
    unfold Line_length, distanceTo, distance, Point_add, Point_multiply; cbv zeta; cbn [x y start end_].
    rewrite Hx, Hy. replace (_ + _) with 0 by ring. apply sqrt_0.
  - assert (HL : Point_length direction <> 0) by (intro H; apply eqb_true_R in H; congruence).
    eexists; split; [reflexivity|split; [reflexivity|split; [intro; contradiction|intros _]]].
    unfold Line_length, distanceTo, distance, Point_add, Point_multiply; cbv zeta; cbn [x y start end_].
    replace ((x point + x direction / Point_length direction * length - x point) *
             (x point + x direction / Point_length direction * length - x point) +
             (y point + y direction / Point_length direction * length - y point) *
             (y point + y direction / Point_length direction * length - y point))
      with (Rsqr length * ((x direction * x direction + y direction * y direction) /
                           (Point_length direction * Point_length direction)))
      by (unfold Rsqr; field; exact HL).
    rewrite <- Point_length_sq. unfold Rdiv.
    rewrite Rinv_r by (apply Rmult_integral_contrapositive; tauto).
    rewrite Rmult_1_r. apply sqrt_Rsqr_abs.
Qed.

Lemma midpoint_lerp (p q : Point) : midpoint p q = lerp p q (1 / 2).
Proof. unfold midpoint, lerp. f_equal; field. Qed.

(** [Circle.fromDiameter(p1, p2)] passes through both points: each lies at
    distance [radius] from the center, and [contains] accepts both. *)
Theorem Circle_fromDiameter_endpoints (p1 p2 : Point) :
  distanceTo (center (fromDiameter p1 p2)) p1 = radius (fromDiameter p1 p2) /\
  distanceTo (center (fromDiameter p1 p2)) p2 = radius (fromDiameter p1 p2) /\
  Circle_contains (fromDiameter p1 p2) p1 = true /\
  Circle_contains (fromDiameter p1 p2) p2 = true.
Proof.
  assert (H1 : distanceTo (center (fromDiameter p1 p2)) p1 = radius (fromDiameter p1 p2)).
  { unfold fromDiameter, distanceTo. cbn [center radius]. rewrite distance_sym, midpoint_lerp.
    rewrite distance_lerp, Rabs_right by lra. lra. }
  assert (H2 : distanceTo (center (fromDiameter p1 p2)) p2 = radius (fromDiameter p1 p2)).
  { unfold fromDiameter, distanceTo. cbn [center radius].
    replace (midpoint p1 p2) with (lerp p2 p1 (1 / 2))
      by (unfold midpoint, lerp; f_equal; field).
    rewrite distance_sym, distance_lerp, Rabs_right, (distance_sym p2 p1) by lra. lra. }
  unfold Circle_contains. rewrite H1, H2.
  split; [reflexivity|split; [reflexivity|split; apply leb_true_R; lra]].
Qed.

(** [circle.pointAt(angle)] lies at distance [|radius|] from the center, and
    [contains] accepts it exactly when the radius is non-negative. *)
Theorem Circle_pointAt_on_circle (c : Circle) (angle : R) :
  distanceTo (center c) (Circle_pointAt c angle) = Rabs (radius c) /\
  (Circle_contains c (Circle_pointAt c angle) = true <-> 0 <= radius c).
Proof.
  assert (H : distanceTo (center c) (Circle_pointAt c angle) = Rabs (radius c)).
  { unfold distanceTo, distance, Circle_pointAt; cbv zeta; cbn [x y].
    pose proof (sin2_cos2 angle) as Hsc. unfold Rsqr in Hsc.
    replace ((x (center c) + cos angle * radius c - x (center c)) *
             (x (center c) + cos angle * radius c - x (center c)) +
             (y (center c) + sin angle * radius c - y (center c)) *
             (y (center c) + sin angle * radius c - y (center c)))
      with (Rsqr (radius c) * (sin angle * sin angle + cos angle * cos angle))
      by (unfold Rsqr; ring).
    rewrite Hsc, Rmult_1_r. apply sqrt_Rsqr_abs. }
  split; [exact H|]. unfold Circle_contains. rewrite H, leb_true_R.
  split; intro Hr.
  - pose proof (Rabs_pos (radius c)). lra.
  - rewrite Rabs_right; lra.
Qed.

(** For non-negative radii, [A.intersects(B)] for two circles holds exactly
    when some point is contained in both circles. *)
Theorem Circle_intersects_circle_common_point (A B : Circle) :
  0 <= radius A -> 0 <= radius B ->
  (Circle_intersects_circle A B = true <->
   exists p, Circle_contains A p = true /\ Circle_contains B p = true).
Proof.
  intros HA HB. unfold Circle_intersects_circle, Circle_contains, distanceTo. cbv zeta.
  rewrite leb_true_R. split.
  - intro Hd.
    destruct (Rle_dec (distance (center A) (center B)) (radius A)) as [Hle|Hgt].
    + exists (center B). rewrite !leb_true_R, distance_self. split; lra.
    + set (d := distance (center A) (center B)) in *.
      assert (Hd0 : 0 < d) by lra.
      exists (lerp (center A) (center B) (radius A / d)). rewrite !leb_true_R.
      rewrite distance_lerp, Rabs_right by (apply Rle_ge; unfold Rdiv; apply Rmult_le_pos; [lra|]; left; apply Rinv_0_lt_compat; lra).
      split; [fold d; unfold Rdiv; rewrite Rmult_assoc, Rinv_l by lra; lra|].
      replace (lerp (center A) (center B) (radius A / d)) with
              (lerp (center B) (center A) (1 - radius A / d))
        by (unfold lerp; f_equal; field; lra).
      rewrite distance_lerp, Rabs_right.
      * rewrite distance_sym. fold d.
        replace ((1 - radius A / d) * d) with (d - radius A) by (field; lra). lra.
      * apply Rle_ge. apply (Rmult_le_reg_r d); [lra|]. unfold Rdiv.
        replace ((1 - radius A * / d) * d) with (d - radius A) by (field; lra). lra.
  - intros [p [Hp1 Hp2]]. rewrite leb_true_R in Hp1, Hp2.
    pose proof (distance_triangle (center A) p (center B)).
    rewrite (distance_sym p (center B)) in *. lra.
Qed.


Lemma clamp_closer (a lo hi v : R) : lo <= hi -> lo <= v <= hi ->
  lo <= Rmax lo (Rmin a hi) <= hi /\
  (Rmax lo (Rmin a hi) - a) * (Rmax lo (Rmin a hi) - a) <= (v - a) * (v - a).
Proof.
  intros Hlh Hv.
  assert (Hcases : (a <= lo /\ Rmax lo (Rmin a hi) = lo) \/ (hi <= a /\ Rmax lo (Rmin a hi) = hi) \/
                   (lo <= a <= hi /\ Rmax lo (Rmin a hi) = a)).
  { unfold Rmax, Rmin; repeat destruct Rle_dec; lra. }
  destruct Hcases as [[H1 ->]|[[H1 ->]|[H1 ->]]]; (split; [lra|]).
  - apply Rmult_le_compat; lra.
  - replace ((hi - a) * (hi - a)) with ((a - hi) * (a - hi)) by ring.
    replace ((v - a) * (v - a)) with ((a - v) * (a - v)) by ring.
    apply Rmult_le_compat; lra.
  - replace ((a - a) * (a - a)) with 0 by ring. apply Rle_0_sqr.
Qed.

Lemma contains_point_iff (r : RectR.Rectangle) (p : Point) :
  RectR.contains_point r p = true <->
  RectR.x r <= x p <= RectR.right r /\ RectR.y r <= y p <= RectR.bottom r.
Proof.
  unfold RectR.contains_point. rewrite !andb_true_iff, !leb_true_R. tauto.
Qed.

(** For a rectangle with non-negative width and height,
    [circle.intersects(rect)] holds exactly when some point contained in the
    rectangle is contained in the circle. *)
Theorem Circle_intersects_rect_closest (c : Circle) (r : RectR.Rectangle) :
  0 <= RectR.width r -> 0 <= RectR.height r ->
  (Circle_intersects_rect c r = true <->
   exists p, RectR.contains_point r p = true /\ Circle_contains c p = true).
Proof.
  intros Hw Hh. unfold Circle_intersects_rect, Circle_contains. cbv zeta.
  assert (Hx : RectR.x r <= RectR.right r) by (unfold RectR.right; lra).
  assert (Hy : RectR.y r <= RectR.bottom r) by (unfold RectR.bottom; lra).
  split.
  - intro H. eexists. split; [|exact H].
    apply contains_point_iff. cbn [x y].
    destruct (clamp_closer (x (center c)) _ _ (RectR.x r) Hx) as [H1 _]; [lra|].
    destruct (clamp_closer (y (center c)) _ _ (RectR.y r) Hy) as [H2 _]; [lra|].
    tauto.
  - intros [p [Hp Hc]]. apply contains_point_iff in Hp. rewrite leb_true_R in *.
    eapply Rle_trans; [|exact Hc].
    unfold distanceTo. apply distance_le_sq. cbn [x y].
    destruct (clamp_closer (x (center c)) _ _ (x p) Hx) as [_ H1]; [tauto|].
    destruct (clamp_closer (y (center c)) _ _ (y p) Hy) as [_ H2]; [tauto|].
    lra.
Qed.

(** Every point [circle.contains] accepts is accepted by
    [circle.boundingBox().contains]. *)
Theorem Circle_boundingBox_contains (c : Circle) (p : Point) :
  Circle_contains c p = true -> RectR.contains_point (Circle_boundingBox c) p = true.
Proof.
  unfold Circle_contains. rewrite leb_true_R. intro H.
  apply contains_point_iff. unfold Circle_boundingBox, RectR.right, RectR.bottom. cbn [RectR.x RectR.y RectR.width RectR.height].
  unfold distanceTo in H.
  pose proof (distance_sq (center c) p) as Hs. pose proof (distance_nonneg (center c) p) as Hn.
  set (d := distance (center c) p) in *.
  set (a := x p - x (center c)) in *. set (b := y p - y (center c)) in *.
  pose proof (Rle_0_sqr a). pose proof (Rle_0_sqr b). unfold Rsqr in *.
  assert (Ha : - radius c <= a <= radius c).
  { split; destruct (Rle_dec (- radius c) a), (Rle_dec a (radius c)); try lra; exfalso; nra. }
  assert (Hb : - radius c <= b <= radius c).
  { split; destruct (Rle_dec (- radius c) b), (Rle_dec b (radius c)); try lra; exfalso; nra. }
  unfold a, b in *. lra.
Qed.


Lemma psum_map (F : Point -> Point -> R) (f : Point -> Point) (vs : list Point) :
  psum F (cycle_pairs (map f vs)) = psum (fun p q => F (f p) (f q)) (cycle_pairs vs).
Proof.
  unfold cycle_pairs.
  assert (Hr : rotl (map f vs) = map f (rotl vs)).
  { destruct vs as [|v r]; [reflexivity|]. cbn. rewrite map_app. reflexivity. }
  rewrite Hr. generalize (rotl vs). unfold psum. clear Hr.
  induction vs as [|a r IH]; intro l; [reflexivity|].
  destruct l as [|b l]; [reflexivity|]. cbn. rewrite IH. reflexivity.
Qed.

Lemma psum_lin (F : Point -> Point -> R) (c : R) (G : Point -> R) (l : list (Point * Point)) :
  (forall p q, F p q = c * cross p q + (G p - G q)) ->
  psum F l = c * psum cross l + psum (fun p q => G p - G q) l.
Proof.
  intro HF. unfold psum. induction l as [|[p q] l IH]; cbn [fold_right]; [ring|].
  rewrite IH, HF. ring.
Qed.

Lemma psum_diff_combine (G : Point -> R) (l1 l2 : list Point) :
  length l1 = length l2 ->
  psum (fun p q => G p - G q) (combine l1 l2) =
  fold_right (fun v acc => G v + acc) 0 l1 - fold_right (fun v acc => G v + acc) 0 l2.
Proof.
  unfold psum. revert l2. induction l1 as [|a r IH]; intros [|b l2] Hl; cbn [length] in Hl;
    try lia; cbn [combine fold_right]; [ring|].
  rewrite IH by lia. ring.
Qed.

Lemma psum_cycle_diff (G : Point -> R) (vs : list Point) :
  psum (fun p q => G p - G q) (cycle_pairs vs) = 0.
Proof.
  unfold cycle_pairs. destruct vs as [|v r]; [reflexivity|].
  rewrite psum_diff_combine by (cbn; rewrite length_app; cbn; lia).
  cbn [rotl]. rewrite fold_right_app. cbn.
  assert (Hs : forall l a0, fold_right (fun v0 acc => G v0 + acc) a0 l =
                            fold_right (fun v0 acc => G v0 + acc) 0 l + a0).
  { induction l as [|b l IH]; intro a0; cbn; [ring|]. rewrite IH. ring. }
  rewrite (Hs r (G v + 0)). ring.
Qed.

Lemma area_map_affine (f : Point -> Point) (c : R) (G : Point -> R) (vs : list Point) :
  (forall p q, cross (f p) (f q) = c * cross p q + (G p - G q)) ->
  area (map f vs) = Rabs c * area vs.
Proof.
  intro Hf. destruct (Nat.lt_ge_cases (length vs) 3) as [Hl|Hl].
  - unfold area. rewrite length_map. replace (length vs <? 3)%nat with true
      by (symmetry; apply Nat.ltb_lt; lia). ring.
  - rewrite !area_shoelace by (rewrite ?length_map; exact Hl).
    change (shoelace (map f vs)) with (psum cross (cycle_pairs (map f vs))).
    change (shoelace vs) with (psum cross (cycle_pairs vs)).
    rewrite psum_map, (psum_lin _ c G) by exact Hf. rewrite psum_cycle_diff, Rplus_0_r.
    unfold Rdiv. rewrite Rmult_assoc, Rabs_mult. reflexivity.
Qed.

(** [translate] and [rotate] about a given origin leave [area()] unchanged,
    and [scale] by [factor] about a given origin multiplies it by
    [factor * factor]. *)
Theorem Polygon_transform_area (vs : list Point) (dx dy angle factor : R) (origin : Point) :
  area (translate vs dx dy) = area vs /\
  area (rotate vs angle origin) = area vs /\
  area (scale vs factor origin) = factor * factor * area vs.
Proof.
  split; [|split].
  - unfold translate. rewrite (area_map_affine _ 1 (fun v => dy * x v - dx * y v)).
    + rewrite Rabs_R1. ring.
    + intros p q. unfold cross, Point_add. cbn [x y]. ring.
  - unfold rotate.
    rewrite (area_map_affine _ 1 (fun v => cross origin v -
               cross origin (Point_rotate (Point_subtract v origin) angle))).
    + rewrite Rabs_R1. ring.
    + intros p q. pose proof (sin2_cos2 angle) as Hsc. unfold Rsqr in Hsc.
      unfold cross, Point_add, Point_rotate, Point_subtract. cbn [x y].
      replace (cos angle * cos angle) with (1 - sin angle * sin angle) by lra.
      transitivity ((x p - x origin) * (y q - y origin) * (sin angle * sin angle + cos angle * cos angle) -
                    (x q - x origin) * (y p - y origin) * (sin angle * sin angle + cos angle * cos angle) +
                    (x origin * ((x q - x origin) * sin angle + (y q - y origin) * cos angle) -
                     ((x q - x origin) * cos angle - (y q - y origin) * sin angle) * y origin) -
                    (x origin * ((x p - x origin) * sin angle + (y p - y origin) * cos angle) -
                     ((x p - x origin) * cos angle - (y p - y origin) * sin angle) * y origin)).
      * ring.
      * rewrite Hsc. ring.
  - unfold scale.
    rewrite (area_map_affine _ (factor * factor) (fun v => (factor * factor - factor) * cross origin v)).
    + rewrite Rabs_right by (apply Rle_ge, Rle_0_sqr). reflexivity.
    + intros p q. unfold cross, Point_add, Point_multiply, Point_subtract. cbn [x y]. ring.
Qed.


Lemma simplify_loop_prefix (eff : list Point) (tolerance : R) (idx : list nat) (acc : list Point) :
  (forall i, In i idx -> (i < length eff)%nat) ->
  exists sfx,
    fold_left (fun simplified i =>
               let prev := vtx simplified (length simplified - 1) in
               let curr := vtx eff i in
               let next := vtx eff (i + 1) in
               let line := mkLine prev next in
               let distance0 := Line_distanceToPoint line curr in
               if ltb tolerance distance0 then simplified ++ [curr] else simplified) idx acc
    = acc ++ sfx /\ (length sfx <= length idx)%nat /\ (forall v, In v sfx -> In v eff).
Proof.
  revert acc. induction idx as [|i idx IH]; intros acc Hidx.
  - exists []. rewrite app_nil_r. split; [reflexivity|split; [cbn; lia|intros v []]].
  - cbn [fold_left]. cbv zeta.
    assert (Hi : (i < length eff)%nat) by (apply Hidx; left; reflexivity).
    assert (Hrest : forall j, In j idx -> (j < length eff)%nat) by (intros j Hj; apply Hidx; right; exact Hj).
    destruct (ltb tolerance _).
    + destruct (IH (acc ++ [vtx eff i]) Hrest) as [sfx [E [Hl Hin]]].
      cbv zeta in E. exists (vtx eff i :: sfx). rewrite E, <- app_assoc. split; [reflexivity|].
      split; [cbn; lia|]. intros v [<-|Hv]; [apply nth_In; exact Hi|apply Hin; exact Hv].
    + destruct (IH acc Hrest) as [sfx [E [Hl Hin]]].
      cbv zeta in E. exists sfx. split; [exact E|]. split; [cbn; lia|exact Hin].
Qed.

(** [simplify(tolerance)] leaves polygons of at most 2 vertices unchanged;
    otherwise it never adds vertices, keeps the first vertex, and every vertex
    of the result is a vertex of the input. *)
Theorem Polygon_simplify_subset (vs : list Point) (tolerance : R) :
  ((length vs <= 2)%nat -> simplify vs tolerance = vs) /\
  (length (simplify vs tolerance) <= length vs)%nat /\
  vtx (simplify vs tolerance) 0 = vtx vs 0 /\
  (forall v, In v (simplify vs tolerance) -> In v vs).
Proof.
  unfold simplify.
  destruct (Nat.leb_spec (length vs) 2) as [Hn|Hn].
  - split; [reflexivity|split; [lia|split; [reflexivity|tauto]]].
  - split; [lia|]. cbv zeta.
    assert (Hne : vs <> []) by (intro E; subst vs; cbn in Hn; lia).
    assert (Hrl : length vs = S (length (removelast vs))).
    { rewrite (app_removelast_last Point_zero Hne) at 1. rewrite length_app. cbn. lia. }
    assert (Hinrl : forall v, In v (removelast vs) -> In v vs).
    { intros v Hv. rewrite (app_removelast_last Point_zero Hne). apply in_or_app. left. exact Hv. }
    set (w := isClosed vs && (1 <? length vs)%nat).
    set (eff := if w then removelast vs else vs).
    assert (Heff : (length eff = length vs - 1 /\ w = true)%nat \/ (length eff = length vs /\ w = false)%nat).
    { unfold eff. destruct w; [left|right]; split; [lia|reflexivity|reflexivity|reflexivity]. }
    assert (Heffin : forall v, In v eff -> In v vs).
    { intros v Hv. unfold eff in Hv. destruct w; [apply Hinrl|]; exact Hv. }
    assert (Hv0 : In (vtx vs 0) vs) by (apply nth_In; lia).
    destruct (simplify_loop_prefix eff tolerance (seq 1 (length eff - 2)) [vtx vs 0])
      as [sfx [E [Hl Hin]]].
    { intros i Hi. apply in_seq in Hi. lia. }
    unfold simplify_loop. cbv zeta in E |- *. rewrite E. rewrite length_seq in Hl.
    replace (1 <? length eff)%nat with true by (symmetry; apply Nat.ltb_lt; lia).
    set (lastv := vtx eff (length eff - 1)).
    assert (Hlast : In lastv vs) by (apply Heffin, nth_In; lia).
    assert (Hs : forall v, In v (([vtx vs 0] ++ sfx) ++ [lastv]) -> In v vs).
    { intros v Hv. apply in_app_or in Hv as [Hv|Hv]; [apply in_app_or in Hv as [Hv|Hv]|].
      - destruct Hv as [<-|[]]. exact Hv0.
      - apply Heffin, Hin, Hv.
      - destruct Hv as [<-|[]]. exact Hlast. }
    assert (Hfirst : vtx (([vtx vs 0] ++ sfx) ++ [lastv]) 0 = vtx vs 0) by reflexivity.
    assert (Hlen : length (([vtx vs 0] ++ sfx) ++ [lastv]) = (length sfx + 2)%nat)
      by (rewrite !length_app; cbn; lia).
    destruct (w && _ && _) eqn:Ew.
    + assert (Hw : w = true) by (destruct w; [reflexivity|discriminate]).
      split; [rewrite length_app, Hlen; cbn [length]; destruct Heff as [[H1 _]|[_ H2]]; [lia|congruence]|].
      split.
      * unfold vtx at 1. rewrite app_nth1 by (rewrite Hlen; lia). exact Hfirst.
      * intros v Hv. apply in_app_or in Hv as [Hv|Hv]; [apply Hs; exact Hv|].
        destruct Hv as [<-|[]]. rewrite Hfirst. exact Hv0.
    + split; [rewrite Hlen; destruct Heff as [[H1 _]|[H1 _]]; lia|].
      split; [exact Hfirst|exact Hs].
Qed.


Lemma Circle_intersects_circle_common_point_witness :
  0 <= radius (mkCircle (mkPoint 0 0) 1) /\ 0 <= radius (mkCircle (mkPoint 3 0) 2) /\
  (Circle_intersects_circle (mkCircle (mkPoint 0 0) 1) (mkCircle (mkPoint 3 0) 2) = true <->
   exists p, Circle_contains (mkCircle (mkPoint 0 0) 1) p = true /\
             Circle_contains (mkCircle (mkPoint 3 0) 2) p = true).
Proof.
  assert (H1 : 0 <= radius (mkCircle (mkPoint 0 0) 1)) by (cbn; lra).
  assert (H2 : 0 <= radius (mkCircle (mkPoint 3 0) 2)) by (cbn; lra).
  split; [exact H1|split; [exact H2|]].
  exact (Circle_intersects_circle_common_point _ _ H1 H2).
Defined.

Lemma Circle_intersects_rect_closest_witness :
  0 <= RectR.width (RectR.mkRectangle 2 0 3 1) /\ 0 <= RectR.height (RectR.mkRectangle 2 0 3 1) /\
  (Circle_intersects_rect (mkCircle (mkPoint 0 0) 1) (RectR.mkRectangle 2 0 3 1) = true <->
   exists p, RectR.contains_point (RectR.mkRectangle 2 0 3 1) p = true /\
             Circle_contains (mkCircle (mkPoint 0 0) 1) p = true).
Proof.
  assert (H1 : 0 <= RectR.width (RectR.mkRectangle 2 0 3 1)) by (cbn; lra).
  assert (H2 : 0 <= RectR.height (RectR.mkRectangle 2 0 3 1)) by (cbn; lra).
  split; [exact H1|split; [exact H2|]].
  exact (Circle_intersects_rect_closest _ _ H1 H2).
Defined.

Lemma Circle_boundingBox_contains_witness :
  Circle_contains (mkCircle (mkPoint 0 0) 1) (mkPoint (1 / 2) 0) = true /\
  RectR.contains_point (Circle_boundingBox (mkCircle (mkPoint 0 0) 1)) (mkPoint (1 / 2) 0) = true.
Proof.
  assert (H : Circle_contains (mkCircle (mkPoint 0 0) 1) (mkPoint (1 / 2) 0) = true).
  { unfold Circle_contains, distanceTo. apply leb_true_R. cbn [center radius].
    apply sqrt_le_iff; cbn [x y]; lra. }
  split; [exact H|]. exact (Circle_boundingBox_contains _ _ H).
Defined.

End RealOps.

(** ** Point and Polygon mutators on the heap *)

Module HeapOps.
Import Heap.


Lemma bind_run {A B} (c : M A) (k : A -> M B) (h h' : heap) (a : A) :
  c h = (Ok a, h') -> bind c k h = k a h'.
Proof. intro H. unfold bind. rewrite H. reflexivity. Qed.

Lemma Point_add_run (h : heap) (a b : loc) (A B : Point) :
  cells h !! a = Some A -> cells h !! b = Some B ->
  Point_add a b h = (Ok a, upd h a (mkPoint (x A + x B) (y A + y B))).
Proof. intros HA HB. unfold Point_add, bind, readP, writeP, ret. rewrite HA, HB. reflexivity. Qed.

Lemma Point_subtract_run (h : heap) (a b : loc) (A B : Point) :
  cells h !! a = Some A -> cells h !! b = Some B ->
  Point_subtract a b h = (Ok a, upd h a (mkPoint (x A - x B) (y A - y B))).
Proof. intros HA HB. unfold Point_subtract, bind, readP, writeP, ret. rewrite HA, HB. reflexivity. Qed.

Lemma Point_multiply_run (h : heap) (a : loc) (A : Point) (f : Q) :
  cells h !! a = Some A ->
  Point_multiply a f h = (Ok a, upd h a (mkPoint (x A * f) (y A * f))).
Proof. intros HA. unfold Point_multiply, bind, readP, writeP, ret. rewrite HA. reflexivity. Qed.

Lemma upd_eq (h : heap) (l : loc) (p : Point) : cells (upd h l p) !! l = Some p.
Proof. apply lookup_insert_eq. Qed.

Lemma upd_ne (h : heap) (l l' : loc) (p : Point) : l <> l' -> cells (upd h l p) !! l' = cells h !! l'.
Proof. intro H. apply lookup_insert_ne. exact H. Qed.

(** [line.scale(factor, origin)] with an [origin] shared with neither
    endpoint scales both endpoints about [origin] and leaves [origin] as it
    was.  Called with [origin] being the line's own [start] object, it first
    turns [start] into (0, 0), so [start] ends at (0, 0) and [end] is scaled
    about (0, 0) instead of about the old start. *)
Theorem Line_scale_aliasing (h : heap) (s e o : loc) (S E O : Point) (f : Q) :
  cells h !! s = Some S -> cells h !! e = Some E -> cells h !! o = Some O -> s <> e ->
  (o <> s -> o <> e ->
   exists h', Line_scale (mkLine s e) f o h = (Ok (mkLine s e), h') /\
     exists S' E', cells h' !! s = Some S' /\ cells h' !! e = Some E' /\ cells h' !! o = Some O /\
       S' ==P mkPoint (x O + f * (x S - x O)) (y O + f * (y S - y O)) /\
       E' ==P mkPoint (x O + f * (x E - x O)) (y O + f * (y E - y O))) /\
  (o = s ->
   exists h', Line_scale (mkLine s e) f o h = (Ok (mkLine s e), h') /\
     exists S' E', cells h' !! s = Some S' /\ cells h' !! e = Some E' /\
       S' ==P mkPoint 0 0 /\ E' ==P mkPoint (f * x E) (f * y E)).
Proof.
  intros HS HE HO Hse. split.
  - intros Hos Hoe. unfold Line_scale. cbn [start end_].
    eexists. split.
    + erewrite bind_run by (apply Point_subtract_run; eassumption).
      erewrite bind_run by (apply Point_multiply_run; apply upd_eq).
      erewrite bind_run.
      2:{ apply Point_add_run; [apply upd_eq|]. rewrite !upd_ne by congruence. exact HO. }
      erewrite bind_run.
      2:{ apply Point_subtract_run; rewrite !upd_ne by congruence; eassumption. }
      erewrite bind_run by (apply Point_multiply_run; apply upd_eq).
      erewrite bind_run.
      2:{ apply Point_add_run; [apply upd_eq|]. rewrite !upd_ne by congruence. exact HO. }
      reflexivity.
    + cbn [x y]. do 2 eexists. split; [|split; [|split; [|split]]].
      * rewrite !upd_ne by congruence. apply upd_eq.
      * apply upd_eq.
      * rewrite !upd_ne by congruence. exact HO.
      * split; cbn [x y]; ring.
      * split; cbn [x y]; ring.
  - intros ->. unfold Line_scale. cbn [start end_].
    eexists. split.
    + erewrite bind_run by (apply Point_subtract_run; eassumption).
      erewrite bind_run by (apply Point_multiply_run; apply upd_eq).
      erewrite bind_run by (apply Point_add_run; apply upd_eq).
      erewrite bind_run.
      2:{ apply Point_subtract_run; [rewrite !upd_ne by congruence; eassumption|apply upd_eq]. }
      erewrite bind_run by (apply Point_multiply_run; apply upd_eq).
      erewrite bind_run.
      2:{ apply Point_add_run; [apply upd_eq|]. rewrite !upd_ne by congruence. apply upd_eq. }
      reflexivity.
    + cbn [x y]. do 2 eexists. split; [|split; [|split]].
      * rewrite !upd_ne by congruence. apply upd_eq.
      * apply upd_eq.
      * split; cbn [x y]; ring.
      * split; cbn [x y]; ring.
Qed.





Lemma Line_scale_aliasing_witness :
  cells heap_line !! 0%nat = Some (mkPoint 1 2) /\ cells heap_line !! 1%nat = Some (mkPoint 3 4) /\
  cells heap_line !! 0%nat = Some (mkPoint 1 2) /\ 0%nat <> 1%nat /\
  ((0%nat <> 0%nat -> 0%nat <> 1%nat ->
    exists h', Line_scale (mkLine 0%nat 1%nat) 2 0%nat heap_line = (Ok (mkLine 0%nat 1%nat), h') /\
      exists S' E', cells h' !! 0%nat = Some S' /\ cells h' !! 1%nat = Some E' /\
        cells h' !! 0%nat = Some (mkPoint 1 2) /\
        S' ==P mkPoint (x (mkPoint 1 2) + 2 * (x (mkPoint 1 2) - x (mkPoint 1 2)))
                       (y (mkPoint 1 2) + 2 * (y (mkPoint 1 2) - y (mkPoint 1 2))) /\
        E' ==P mkPoint (x (mkPoint 1 2) + 2 * (x (mkPoint 3 4) - x (mkPoint 1 2)))
                       (y (mkPoint 1 2) + 2 * (y (mkPoint 3 4) - y (mkPoint 1 2)))) /\
   (0%nat = 0%nat ->
    exists h', Line_scale (mkLine 0%nat 1%nat) 2 0%nat heap_line = (Ok (mkLine 0%nat 1%nat), h') /\
      exists S' E', cells h' !! 0%nat = Some S' /\ cells h' !! 1%nat = Some E' /\
        S' ==P mkPoint 0 0 /\ E' ==P mkPoint (2 * x (mkPoint 3 4)) (2 * y (mkPoint 3 4)))).
Proof.
  assert (H1 : cells heap_line !! 0%nat = Some (mkPoint 1 2)) by reflexivity.
  assert (H2 : cells heap_line !! 1%nat = Some (mkPoint 3 4)) by reflexivity.
  assert (H4 : 0%nat <> 1%nat) by lia.
  split; [exact H1|split; [exact H2|split; [exact H1|split; [exact H4|]]]].
  exact (Line_scale_aliasing heap_line 0%nat 1%nat 0%nat (mkPoint 1 2) (mkPoint 3 4) (mkPoint 1 2) 2 H1 H2 H1 H4).
Defined.

End HeapOps.
